(** * RCString: a copy-on-write, reference-counted string

    Shallow embedding of [RCString/src/rc_string.cpp] (the plain counter),
    of the [ThreadSafeStringData] class of
    [RCString/src/thread_safe_rc_string.cpp] (the atomic counter) and of the
    [BlockingQueue] template that accompanies them.

    Conventions.
    - [size_t] is 64 bits wide and [unsigned int] 32 bits wide; both are
      carried by [Z] and every arithmetic operation of the source is followed
      by its wrap-around.
    - A failed [assert], a rejected [memcpy_s] call, an access outside an
      allocated array and a read through a pointer whose array has been
      freed end the run: the operation returns [None].
    - Memory is never exhausted: [new] always returns.
    - A [const char*] handed to [Append] stays a pointer until [memcpy_s]
      reads it (type [source]); the constructors read their source before
      anything is freed and into a new array, so they take its characters
      as a list. *)

From Stdlib Require Import ZArith Lia Strings.Byte QArith Qround Qminmax.
From stdpp Require Import base option list gmap fin_maps.

Local Open Scope Z_scope.

(** ** Machine integers *)

Definition size_modulus : Z := 2 ^ 64.
Definition uint_modulus : Z := 2 ^ 32.

(** Result of an operation on [size_t] operands. *)
Definition wrap_size (z : Z) : Z := z mod size_modulus.

(** Result of an operation on [unsigned int] operands. *)
Definition wrap_uint (z : Z) : Z := z mod uint_modulus.

(** [constexpr size_t kBaseSize = 4;] *)
Definition kBaseSize : Z := 4.

(** [static constexpr size_t kUnsharedRefMark =
       static_cast<unsigned int>(-1);] *)
Definition kUnsharedRefMark : Z := wrap_uint (-1).

(** [RoundToMultiple(num, factor)]:
    [factor == 0 ? 0 : (num - 1 - (num - 1) % factor + factor)],
    evaluated left to right on [size_t]. *)
Definition RoundToMultiple (num factor : Z) : Z :=
  if factor =? 0 then 0
  else
    let rest := wrap_size (num - 1) mod factor in
    wrap_size (wrap_size (wrap_size (num - 1) - rest) + factor).

(** ** Character arrays *)

(** A [char] of an array obtained from [new char[n]]: indeterminate until it
    is written. *)
Definition cell : Type := option byte.

(** The [std::unique_ptr<char[]>] member: the address it holds ([0] for
    [nullptr]) together with the array it owns. *)
Record Buffer : Type := mkBuffer {
  addr : Z;
  bytes : list cell
}.

Definition null_buffer : Buffer := {| addr := 0; bytes := [] |}.

(** [new char[n]] placed at address [p]. *)
Definition new_chars (p : Z) (n : Z) : Buffer :=
  {| addr := p; bytes := replicate (Z.to_nat n) None |}.

Definition assert (c : bool) : option unit :=
  if c then Some () else None.

(** The array [dest] after [count] characters of [src] have been written
    from position [off] on. *)
Definition splice (dest : list cell) (off : Z) (src : list cell) (count : Z)
    : list cell :=
  take (Z.to_nat off) dest
    ++ take (Z.to_nat count) src
    ++ drop (Z.to_nat (off + count)) dest.

(** [memcpy_s(dest + off, destsz, src, count)] as the Microsoft runtime
    defines it: nothing happens for [count == 0]; a null destination or
    [destsz < count] invokes the invalid-parameter handler; otherwise
    [count] bytes are copied.  Copying past the end of either array has no
    defined result.  The function returns the destination array. *)
Definition memcpy_s (dest : Buffer) (off destsz : Z) (src : list cell)
    (count : Z) : option (list cell) :=
  if count =? 0 then Some (bytes dest)
  else
    assert (negb (addr dest =? 0));;
    assert (count <=? destsz);;
    assert (off + count <=? Z.of_nat (length (bytes dest)));;
    assert (count <=? Z.of_nat (length src));;
    Some (splice (bytes dest) off src count).

(** ** The shared data block *)

Record StringData : Type := mkStringData {
  buffer_ : Buffer;
  capacity_ : Z;
  size_ : Z;
  ref_count_ : Z
}.

Definition set_buffer (b : StringData) (buf : Buffer) (cap : Z) : StringData :=
  {| buffer_ := buf; capacity_ := cap; size_ := size_ b;
     ref_count_ := ref_count_ b |}.

Definition set_ref_count (b : StringData) (n : Z) : StringData :=
  {| buffer_ := buffer_ b; capacity_ := capacity_ b; size_ := size_ b;
     ref_count_ := n |}.

Definition set_contents (b : StringData) (cs : list cell) (n : Z)
    : StringData :=
  {| buffer_ := {| addr := addr (buffer_ b); bytes := cs |};
     capacity_ := capacity_ b; size_ := n; ref_count_ := ref_count_ b |}.

(** [char* data() const] *)
Definition data (b : StringData) : Z := addr (buffer_ b).

(** [size_t size() const] *)
Definition size (b : StringData) : Z := size_ b.

(** *** Reference-count protocol (members shared by both classes) *)

Definition Unique (b : StringData) : bool :=
  (ref_count_ b =? 1) || (ref_count_ b =? kUnsharedRefMark).

Definition Unsharedable (b : StringData) : bool :=
  ref_count_ b =? kUnsharedRefMark.

Definition MakeUnsharedable (b : StringData) : option StringData :=
  assert (Unique b);;
  Some (set_ref_count b kUnsharedRefMark).

Definition ResetSharedable (b : StringData) : option StringData :=
  assert (Unique b);;
  Some (set_ref_count b 1).

Definition AddRef (b : StringData) : option StringData :=
  assert (0 <? ref_count_ b);;
  Some (set_ref_count b (wrap_uint (ref_count_ b + 1))).

(** [StringData::Release]: [Unsharedable() || --ref_count_ == 0]. *)
Definition Release (b : StringData) : option (bool * StringData) :=
  assert (0 <? ref_count_ b);;
  if Unsharedable b then Some (true, b)
  else
    let n := wrap_uint (ref_count_ b - 1) in
    Some (n =? 0, set_ref_count b n).

(** *** Growth and writes *)

(** The capacity [Reserve] moves to when it has to grow. *)
Definition grown_capacity (capacity required_capacity : Z) : Z :=
  let new_base := Z.max (wrap_size (capacity * 3) / 2) required_capacity in
  RoundToMultiple new_base kBaseSize.

(** [StringData::Reserve]; [p] is the address [new char[new_capacity]]
    returns. *)
Definition Reserve (p : Z) (b : StringData) (required_capacity : Z)
    : option StringData :=
  if required_capacity <=? capacity_ b then Some b
  else
    let new_base := Z.max (wrap_size (capacity_ b * 3) / 2) required_capacity in
    let new_capacity := RoundToMultiple new_base kBaseSize in
    let new_buf := new_chars p new_capacity in
    cs ← memcpy_s new_buf 0 new_capacity (bytes (buffer_ b)) (size_ b);
    Some (set_buffer b {| addr := p; bytes := cs |} new_capacity).

(** [StringData::CopyData]; [str] lists the characters readable from the
    source pointer when [memcpy_s] runs. *)
Definition CopyData (b : StringData) (str : list cell) (length pos : Z)
    : option StringData :=
  assert (Unique b);;
  assert (pos <=? size_ b);;
  assert (wrap_size (pos + length) <=? capacity_ b);;
  cs ← memcpy_s (buffer_ b) pos (capacity_ b) str length;
  Some (set_contents b cs (Z.max (wrap_size (pos + length)) (size_ b))).

(** *** The atomic counter of [ThreadSafeStringData] *)

(** [ref_count_.fetch_sub(n)]: stores the difference and returns the value held
    before the subtraction. *)
Definition fetch_sub (b : StringData) (n : Z) : Z * StringData :=
  (ref_count_ b, set_ref_count b (wrap_uint (ref_count_ b - n))).

(** [ref_count_.fetch_add(n)] *)
Definition fetch_add (b : StringData) (n : Z) : Z * StringData :=
  (ref_count_ b, set_ref_count b (wrap_uint (ref_count_ b + n))).

(** The members of [ThreadSafeStringData].  [load] and [store] read and write
    the counter exactly as the plain members do, and [Reserve], [CopyData] and
    [Clone] repeat the text of [StringData]; only [AddRef] and [Release] are
    written differently. *)
Module ThreadSafeStringData.

Definition Unique : StringData → bool := Unique.
Definition Unsharedable : StringData → bool := Unsharedable.
Definition MakeUnsharedable : StringData → option StringData :=
  MakeUnsharedable.
Definition ResetSharedable : StringData → option StringData :=
  ResetSharedable.

Definition AddRef (b : StringData) : option StringData :=
  assert (0 <? ref_count_ b);;
  Some (snd (fetch_add b 1)).

(** [Unsharedable() || ref_count_.fetch_sub(1) == 0] *)
Definition Release (b : StringData) : option (bool * StringData) :=
  assert (0 <? ref_count_ b);;
  if Unsharedable b then Some (true, b)
  else
    let '(previous, b') := fetch_sub b 1 in
    Some (previous =? 0, b').

Definition Reserve : Z → StringData → Z → option StringData := Reserve.
Definition CopyData
    : StringData → list cell → Z → Z → option StringData := CopyData.

End ThreadSafeStringData.

(** ** The heap *)

(** The handle: [StringData* data_]. *)
Record RCString : Type := mkRCString { data_ : Z }.

(** Live [StringData] objects by address.  The array a block owns lives and
    dies with it, so the addresses in use are those of the objects and of
    their arrays, and the null address. *)
Abbreviation Heap := (gmap Z StringData).

Definition live_arrays (h : Heap) : gset Z :=
  map_img (SA := gset Z) (data <$> h).

Definition used (h : Heap) : gset Z := {[0]} ∪ dom h ∪ live_arrays h.

(** Address returned by [new] when the addresses [X] are taken. *)
Definition allocate (X : gset Z) : Z := fresh X.

(** Run a member function on the object at [this]. *)
Definition invoke (this : Z) (m : StringData → option StringData) (h : Heap)
    : option Heap :=
  b ← h !! this;
  b' ← m b;
  Some (<[this := b']> h).

(** ** Source pointers *)

(** The [const char*] a caller hands to [Append].  It points either to an
    array of the caller's that no block owns (a literal, a local array),
    whose characters from the pointer on are listed, or into the array of a
    live block, as [data()] and [operator[]] return it: [owner] is the
    address of the block, [array] the address its array had when the pointer
    was taken, and [offset] the distance from the start of that array. *)
Inductive source : Type :=
  | Outside (chars : list cell)
  | Inside (owner : Z) (array : Z) (offset : Z).

(** The characters readable from a source pointer in the heap [h].  A pointer
    into the array of a block is dangling once the block is deleted or has
    given up that array ([buffer_.reset] in [Reserve]); reading through it
    has no defined result. *)
Definition chars_at (h : Heap) (str : source) : option (list cell) :=
  match str with
  | Outside chars => Some chars
  | Inside owner array offset =>
      b ← h !! owner;
      assert (negb (array =? 0) && (data b =? array) && (0 <=? offset));;
      Some (drop (Z.to_nat offset) (bytes (buffer_ b)))
  end.

(** What [memcpy_s] finds at the source when it copies [length] characters
    to position [pos] of the array of the block at [dest].  A copy of no
    characters never looks at the source; a copy between overlapping ranges
    of one array has no defined result. *)
Definition read_source (h : Heap) (dest : Z) (pos : Z) (str : source)
    (length : Z) : option (list cell) :=
  match str with
  | Outside chars => Some chars
  | Inside owner array offset =>
      if length =? 0 then Some []
      else
        chars ← chars_at h str;
        assert (negb (owner =? dest)
                || (offset + length <=? pos) || (pos + length <=? offset));;
        Some chars
  end.

Section Construction.

(** [StringData(size_t capacity) : size_(0), ref_count_(1)] leaves
    [capacity_] without an initialiser, and [Reserve] reads it before any
    assignment.  [stale] stands for the value found there. *)
Variable stale : Z.

(** The constructor body, run on storage whose array would get address [p]. *)
Definition StringData_ctor (p : Z) (capacity : Z) : option StringData :=
  Reserve p {| buffer_ := null_buffer; capacity_ := stale;
               size_ := 0; ref_count_ := 1 |} capacity.

(** [new StringData(capacity)] *)
Definition new_StringData (capacity : Z) (h : Heap) : option (Z * Heap) :=
  let a := allocate (used h) in
  b ← StringData_ctor (allocate ({[a]} ∪ used h)) capacity;
  Some (a, <[a := b]> h).

(** [StringData::Clone] *)
Definition Clone (this : Z) (new_capacity : Z) (h : Heap) : option (Z * Heap) :=
  b ← h !! this;
  '(d, h1) ← new_StringData (Z.max new_capacity (capacity_ b)) h;
  h2 ← invoke d (λ x, CopyData x (bytes (buffer_ b)) (size_ b) 0) h1;
  Some (d, h2).

(** ** The handle *)

(** [RCString::RCString()] *)
Definition RCString_default (h : Heap) : option (RCString * Heap) :=
  '(d, h1) ← new_StringData kBaseSize h;
  Some ({| data_ := d |}, h1).

(** [RCString::RCString(const RCString& other)] *)
Definition RCString_copy (other : RCString) (h : Heap)
    : option (RCString * Heap) :=
  b ← h !! data_ other;
  if negb (Unsharedable b) then
    h1 ← invoke (data_ other) AddRef h;
    Some ({| data_ := data_ other |}, h1)
  else
    '(d, h1) ← Clone (data_ other) (size b) h;
    Some ({| data_ := d |}, h1).

(** [RCString::RCString(const char* str, size_t length)].  No array is
    freed between the call and the copy, and the copy goes to a new array:
    [str] lists the characters readable from the source. *)
Definition RCString_from (str : list cell) (length : Z) (h : Heap)
    : option (RCString * Heap) :=
  '(d, h1) ← new_StringData length h;
  h2 ← invoke d (λ x, CopyData x str length 0) h1;
  Some ({| data_ := d |}, h2).

(** [RCString::~RCString()]; [delete data_] runs [~StringData()], whose
    assertion wants the count at zero or at the mark. *)
Definition RCString_dtor (s : RCString) (h : Heap) : option Heap :=
  b ← h !! data_ s;
  '(last, b') ← Release b;
  if (last : bool) then
    assert ((ref_count_ b' =? 0) || (ref_count_ b' =? kUnsharedRefMark));;
    Some (delete (data_ s) h)
  else Some (<[data_ s := b']> h).

(** [RCString::PrepareToModify]; the value of [Release] is dropped, as in
    the source. *)
Definition PrepareToModify (s : RCString) (required_capacity : Z)
    (make_unsharedable : bool) (h : Heap) : option (RCString * Heap) :=
  b ← h !! data_ s;
  '(s1, h1) ←
    (if negb (Unique b) then
       '(new_data, h1) ← Clone (data_ s) required_capacity h;
       h2 ← invoke (data_ s) (λ x, snd <$> Release x) h1;
       Some ({| data_ := new_data |}, h2)
     else
       h1 ← invoke (data_ s)
              (λ x, Reserve (allocate (used h)) x required_capacity) h;
       Some (s, h1));
  h2 ← invoke (data_ s1)
         (if make_unsharedable then MakeUnsharedable else ResetSharedable) h1;
  Some (s1, h2).

(** [RCString::Append(const char* str, size_t length)].  [str] is still a
    pointer when [PrepareToModify] runs: the source is read by the
    [memcpy_s] of [CopyData], from the heap that [PrepareToModify] leaves. *)
Definition Append (s : RCString) (str : source) (length : Z) (h : Heap)
    : option (RCString * Heap) :=
  b ← h !! data_ s;
  let new_size := wrap_size (size b + length) in
  '(s1, h1) ← PrepareToModify s new_size false h;
  b1 ← h1 !! data_ s1;
  chars ← read_source h1 (data_ s1) (size b1) str length;
  h2 ← invoke (data_ s1) (λ x, CopyData x chars length (size x)) h1;
  Some (s1, h2).

(** [RCString::data()] *)
Definition RCString_data (s : RCString) (h : Heap) : option Z :=
  data <$> h !! data_ s.

(** [RCString::size()] *)
Definition RCString_size (s : RCString) (h : Heap) : option Z :=
  size <$> h !! data_ s.

(** [const char& RCString::operator[](size_t pos) const], read at once. *)
Definition RCString_at (s : RCString) (pos : Z) (h : Heap) : option cell :=
  b ← h !! data_ s;
  bytes (buffer_ b) !! Z.to_nat pos.

(** [char& RCString::operator[](size_t pos)]: the reference returned is the
    address of the character, which has to lie in the array. *)
Definition RCString_at_mut (s : RCString) (pos : Z) (h : Heap)
    : option (Z * RCString * Heap) :=
  b ← h !! data_ s;
  '(s1, h1) ← PrepareToModify s (size b) true h;
  b1 ← h1 !! data_ s1;
  assert (pos <? Z.of_nat (length (bytes (buffer_ b1))));;
  Some (data b1 + pos, s1, h1).

End Construction.

(** ** The remaining members of the handle *)

(** [strlen] and [std::char_traits<char>::length]: the number of characters
    in front of the first NUL.  Running off the array, or onto a character
    that was never written, has no defined result. *)
Fixpoint strlen (str : list cell) : option Z :=
  match str with
  | [] => None
  | None :: _ => None
  | Some c :: rest =>
      if Byte.eqb c x00 then Some 0 else Z.succ <$> strlen rest
  end.

(** [RCString::RCString(const char* str)], which delegates to the
    constructor that takes a length. *)
Definition RCString_from_cstr (stale : Z) (str : list cell) (h : Heap)
    : option (RCString * Heap) :=
  length ← strlen str;
  RCString_from stale str length h.

(** [RCString::Append(const char* str)]: the length is counted at the source
    before [Append(str, length)] runs. *)
Definition Append_cstr (stale : Z) (s : RCString) (str : source)
    (h : Heap) : option (RCString * Heap) :=
  chars ← chars_at h str;
  length ← strlen chars;
  Append stale s str length h.

(** Modelled from the spec: [empty()] is declared in [rc_string.h], which is
    not among the sources; the serialization "writes the raw content bytes
    only if size > 0", so [empty()] is [size() == 0]. *)
Definition RCString_empty (s : RCString) (h : Heap) : option bool :=
  (λ b, size b =? 0) <$> h !! data_ s.

(** [std::ostream::write(src, n)] on a stream that holds [os]: [n]
    characters of the array are appended. *)
Definition ostream_write (os : list cell) (src : list cell) (n : Z)
    : option (list cell) :=
  assert (n <=? Z.of_nat (length src));;
  Some (os ++ take (Z.to_nat n) src).

(** [std::ostream& operator<<(std::ostream& os, const RCString& str)] *)
Definition RCString_output (os : list cell) (str : RCString) (h : Heap)
    : option (list cell) :=
  b ← h !! data_ str;
  is_empty ← RCString_empty str h;
  if negb is_empty then ostream_write os (bytes (buffer_ b)) (size b)
  else Some os.

(** ** The blocking queue *)

Module BlockingQueue.

(** [std::mutex mutex_] is held or free; [std::queue<T> buffer_] is listed
    oldest element first.  The condition variable has no state of its own
    while a single thread uses the queue. *)
Record t (T : Type) : Type := mk {
  mutex_ : bool;
  buffer_ : list T
}.
Arguments mk {T} _ _.
Arguments mutex_ {T} _.
Arguments buffer_ {T} _.

Section Operations.

Context {T : Type}.

(** [BlockingQueue() = default] *)
Definition empty : t T := {| mutex_ := false; buffer_ := [] |}.

(** Taking the mutex; a thread that already holds it does not come back. *)
Definition lock (q : t T) : option (t T) :=
  if mutex_ q then None else Some {| mutex_ := true; buffer_ := buffer_ q |}.

Definition unlock (q : t T) : t T :=
  {| mutex_ := false; buffer_ := buffer_ q |}.

(** [std::queue::push] *)
Definition push (ele : T) (q : t T) : t T :=
  {| mutex_ := mutex_ q; buffer_ := buffer_ q ++ [ele] |}.

(** [std::queue::front] followed by [std::queue::pop] *)
Definition front_pop (q : t T) : option (T * t T) :=
  match buffer_ q with
  | [] => None
  | ele :: rest => Some (ele, {| mutex_ := mutex_ q; buffer_ := rest |})
  end.

(** [not_empty_.wait(lock, pred)]: returns at once when the predicate
    holds; otherwise the calling thread sleeps until another thread
    notifies it, which never happens when there is no other thread. *)
Definition wait_not_empty (q : t T) : option (t T) :=
  match buffer_ q with
  | [] => None
  | _ :: _ => Some q
  end.

(** [void Enqueue(const T& ele)]; [notify_one] wakes nobody here. *)
Definition Enqueue (ele : T) (q : t T) : option (t T) :=
  q1 ← lock q;
  Some (unlock (push ele q1)).

(** [T Dequeue()] *)
Definition Dequeue (q : t T) : option (T * t T) :=
  q1 ← lock q;
  q2 ← wait_not_empty q1;
  '(ele, q3) ← front_pop q2;
  Some (ele, unlock q3).

(** [size_t size() const] *)
Definition size (q : t T) : option Z :=
  q1 ← lock q;
  Some (Z.of_nat (length (buffer_ q1))).

(** Enqueue every element of [xs], first to last. *)
Fixpoint Enqueue_all (xs : list T) (q : t T) : option (t T) :=
  match xs with
  | [] => Some q
  | x :: xs' => q1 ← Enqueue x q; Enqueue_all xs' q1
  end.

(** Call [Dequeue] [n] times and list what the calls return. *)
Fixpoint Dequeue_n (n : nat) (q : t T) : option (list T * t T) :=
  match n with
  | O => Some ([], q)
  | S n' =>
      '(x, q1) ← Dequeue q;
      '(xs, q2) ← Dequeue_n n' q1;
      Some (x :: xs, q2)
  end.

End Operations.

End BlockingQueue.

(** ** Well-formed blocks *)

(** The array a block holds is the one its fields describe. *)
Record array_ok (b : StringData) : Prop := {
  ok_length : Z.of_nat (length (bytes (buffer_ b))) = capacity_ b;
  ok_size : 0 ≤ size_ b ≤ capacity_ b;
  ok_capacity : capacity_ b < size_modulus;
  ok_addr : capacity_ b ≠ 0 → data b ≠ 0
}.

(** A block as the handle operations keep it. *)
Record block_ok (b : StringData) : Prop := {
  ok_array : array_ok b;
  ok_aligned : capacity_ b mod kBaseSize = 0;
  ok_count : 1 ≤ ref_count_ b ≤ kUnsharedRefMark
}.

(** The two meanings of the counter. *)
Inductive ref_state : Type :=
  | Shared (n : Z)
  | Exclusive.

Definition state_of (b : StringData) : ref_state :=
  if Unsharedable b then Exclusive else Shared (ref_count_ b).

(** The block a constructor starts from when its storage reads as zero. *)
Definition blank : StringData :=
  {| buffer_ := null_buffer; capacity_ := 0; size_ := 0; ref_count_ := 1 |}.

(** The counter [PrepareToModify] leaves behind. *)
Definition mark_for (make_unsharedable : bool) : Z :=
  if make_unsharedable then kUnsharedRefMark else 1.

(** ** Sequences of calls *)

(** [n] holders of one block call [release] one after the other.  Each call
    decides on one read-modify-write of the counter, so the calls of
    concurrent holders give the results of one such order. *)
Fixpoint release_all (release : StringData → option (bool * StringData))
    (n : nat) (b : StringData) : option (list bool) :=
  match n with
  | O => Some []
  | S n' =>
      '(last, b') ← release b;
      rest ← release_all release n' b';
      Some (last :: rest)
  end.

(** The public operations that act on one handle. *)
Inductive op : Type :=
  | OpAppend (str : source) (length : Z)
  | OpAtMut (pos : Z)
  | OpAt (pos : Z)
  | OpData
  | OpSize
  | OpCopy.

Definition is_append (o : op) : bool :=
  match o with
  | OpAppend _ _ => true
  | _ => false
  end.

(** The positions an operation touches lie below [bound]. *)
Definition in_range (bound : Z) (o : op) : bool :=
  match o with
  | OpAtMut pos | OpAt pos => (0 <=? pos) && (pos <? bound)
  | _ => true
  end.

Definition run_op (stale : Z) (o : op) (s : RCString) (h : Heap)
    : option (RCString * Heap) :=
  match o with
  | OpAppend str length => Append stale s str length h
  | OpAtMut pos => '(_, s', h') ← RCString_at_mut stale s pos h; Some (s', h')
  | OpAt pos => _ ← RCString_at s pos h; Some (s, h)
  | OpData => _ ← RCString_data s h; Some (s, h)
  | OpSize => _ ← RCString_size s h; Some (s, h)
  | OpCopy => '(_, h') ← RCString_copy stale s h; Some (s, h')
  end.

Fixpoint run_ops (stale : Z) (ops : list op) (s : RCString) (h : Heap)
    : option (RCString * Heap) :=
  match ops with
  | [] => Some (s, h)
  | o :: ops' => '(s', h') ← run_op stale o s h; run_ops stale ops' s' h'
  end.

(** [Append] every sequence of [strs] in turn, whole, each from an array
    outside the heap; the result lists the handle and the heap after each
    call. *)
Fixpoint Append_all (stale : Z) (strs : list (list cell)) (s : RCString)
    (h : Heap) : option (list (RCString * Heap)) :=
  match strs with
  | [] => Some []
  | str :: rest =>
      '(s', h') ← Append stale s (Outside str) (Z.of_nat (length str)) h;
      trace ← Append_all stale rest s' h';
      Some ((s', h') :: trace)
  end.

Definition total_length (strs : list (list cell)) : Z :=
  foldr (λ str n, Z.of_nat (length str) + n) 0 strs.

(** Copy-construct [n] handles from [A]; the result lists them, the last
    one made first. *)
Fixpoint copy_n (stale : Z) (n : nat) (A : RCString) (h : Heap)
    : option (list RCString * Heap) :=
  match n with
  | O => Some ([], h)
  | S n' =>
      '(B, h1) ← RCString_copy stale A h;
      '(copies, h2) ← copy_n stale n' A h1;
      Some (copies ++ [B], h2)
  end.

(** Destroy the handles of [handles], first to last. *)
Fixpoint destroy_all (handles : list RCString) (h : Heap) : option Heap :=
  match handles with
  | [] => Some h
  | s :: rest => h1 ← RCString_dtor s h; destroy_all rest h1
  end.

(** [Append] every sequence of [strs] in turn, whole, each from an array
    outside the heap, and return the handle and the heap the last call
    leaves. *)
Fixpoint Append_each (stale : Z) (strs : list (list cell)) (s : RCString)
    (h : Heap) : option (RCString * Heap) :=
  match strs with
  | [] => Some (s, h)
  | str :: rest =>
      '(s', h') ← Append stale s (Outside str) (Z.of_nat (length str)) h;
      Append_each stale rest s' h'
  end.

(** The array of a C string: the characters of [text], a NUL, and whatever
    the array holds behind it. *)
Definition terminated (text : list byte) (rest : list cell) : list cell :=
  (Some <$> text) ++ Some x00 :: rest.

(** A heap as the handle operations keep it: every block is well formed and
    no array belongs to two blocks. *)
Definition heap_ok (h : Heap) : Prop :=
  (∀ i b, h !! i = Some b → block_ok b)
  ∧ (∀ i j bi bj, h !! i = Some bi → h !! j = Some bj → i ≠ j →
                  data bi ≠ 0 → data bi ≠ data bj).

(** The characters a handle stands for: the first [size()] of its array. *)
Definition contents (b : StringData) : list cell :=
  take (Z.to_nat (size_ b)) (bytes (buffer_ b)).

(** ** The documented contracts *)

(** Growth as documented: the larger of one and a half times the capacity
    and the request, rounded up to a multiple of the granularity. *)
Definition times_one_and_a_half (capacity : Z) : Q :=
  (inject_Z capacity * (3 # 2))%Q.

Definition round_up_to_multiple (x : Q) (granularity : Z) : Z :=
  granularity * Qceiling (x / inject_Z granularity)%Q.

Definition documented_capacity (capacity required_capacity : Z) : Z :=
  round_up_to_multiple
    (Qmax (times_one_and_a_half capacity) (inject_Z required_capacity)) 4.

(** What is documented of [Reserve]. *)
Definition Reserve_contract (p : Z) (b : StringData) (required_capacity : Z)
    : Prop :=
  (required_capacity ≤ capacity_ b → Reserve p b required_capacity = Some b)
  ∧ (capacity_ b < required_capacity →
     ∃ b', Reserve p b required_capacity = Some b'
           ∧ capacity_ b'
             = documented_capacity (capacity_ b) required_capacity
           ∧ take (Z.to_nat (size_ b)) (bytes (buffer_ b'))
             = take (Z.to_nat (size_ b)) (bytes (buffer_ b))
           ∧ size_ b' = size_ b)
  ∧ (∀ b', Reserve p b required_capacity = Some b' →
           capacity_ b ≤ capacity_ b').

(** What is documented of copy construction from the handle [A]. *)
Definition copy_contract (stale : Z) (h : Heap) (A : RCString) : Prop :=
  ∃ b B h',
    h !! data_ A = Some b
    ∧ RCString_copy stale A h = Some (B, h')
    ∧ if Unsharedable b then
        h !! data_ B = None
        ∧ h' !! data_ A = Some b
        ∧ ∃ c, h' !! data_ B = Some c
               ∧ size_ c = size_ b
               ∧ take (Z.to_nat (size_ b)) (bytes (buffer_ c))
                 = take (Z.to_nat (size_ b)) (bytes (buffer_ b))
               ∧ state_of c = Shared 1
      else
        data_ B = data_ A
        ∧ ∃ b', h' !! data_ A = Some b'
                ∧ ref_count_ b' = ref_count_ b + 1
                ∧ Unique b' = false
                ∧ RCString_data A h' = RCString_data B h'.



(** What is documented of a handle after a mutable indexed access, when the
    operations [ops] have followed it. *)
Definition stays_exclusive (stale : Z) (h : Heap) (A : RCString) (ops : list op)
    : Prop :=
  ∀ A' h', run_ops stale ops A h = Some (A', h') →
    ∃ b C h'' c,
      h' !! data_ A' = Some b
      ∧ Unsharedable b = true
      ∧ RCString_copy stale A' h' = Some (C, h'')
      ∧ data_ C ≠ data_ A'
      ∧ h'' !! data_ C = Some c
      ∧ data c ≠ data b.

(** The handle [A] holds the exclusive block [b], which has an array. *)
Definition exclusive_at (h : Heap) (A : RCString) (b : StringData) : Prop :=
  h !! data_ A = Some b ∧ block_ok b
  ∧ ref_count_ b = kUnsharedRefMark ∧ 0 < capacity_ b.

(** ** Blocks and heaps used as examples *)

Definition hello : list cell :=
  Some <$> [x68; x65; x6c; x6c; x6f]%byte.

(** A block of capacity 8 that holds the five characters of [hello]. *)
Definition hello_block : StringData :=
  {| buffer_ := {| addr := 2; bytes := hello ++ [None; None; None] |};
     capacity_ := 8; size_ := 5; ref_count_ := 1 |}.

(** A block of capacity 4 that holds nothing, as [RCString()] makes it. *)
Definition empty_block : StringData :=
  {| buffer_ := {| addr := 2; bytes := [None; None; None; None] |};
     capacity_ := 4; size_ := 0; ref_count_ := 1 |}.

(** What [new StringData(capacity)] builds when the request is at most the
    value [stale] found in [capacity_]: no array, and [stale] for a capacity. *)
Definition stale_block (stale : Z) : StringData :=
  {| buffer_ := null_buffer; capacity_ := stale; size_ := 0; ref_count_ := 1 |}.

(** The invariant of the growth policy, on the block a handle holds. *)
Definition capacity_invariant (state : RCString * Heap) : Prop :=
  ∃ b, state.2 !! data_ state.1 = Some b
       ∧ capacity_ b mod kBaseSize = 0
       ∧ size_ b ≤ capacity_ b.

(** The block of [hello] when [kUnsharedRefMark - 1] handles hold it. *)
Definition crowded_block : StringData :=
  set_ref_count hello_block (kUnsharedRefMark - 1).

(** The block of [hello] after a mutable indexed access. *)
Definition exclusive_block : StringData :=
  set_ref_count hello_block kUnsharedRefMark.

(** ** Arithmetic of the growth policy *)

Lemma kUnsharedRefMark_value : kUnsharedRefMark = 4294967295.
Proof. reflexivity. Qed.

Lemma size_modulus_value : size_modulus = 18446744073709551616.
Proof. reflexivity. Qed.

Lemma wrap_size_small z : 0 ≤ z < size_modulus → wrap_size z = z.
Proof. intros. unfold wrap_size. by apply Z.mod_small. Qed.

Lemma wrap_size_range z : 0 ≤ wrap_size z < size_modulus.
Proof. unfold wrap_size. apply Z.mod_pos_bound. reflexivity. Qed.

Lemma RoundToMultiple_base num :
  1 ≤ num ≤ size_modulus - 4 →
  RoundToMultiple num kBaseSize = 4 * ((num + 3) / 4).
Proof.
  intros Hnum. unfold RoundToMultiple, kBaseSize. simpl (4 =? 0).
  rewrite size_modulus_value in Hnum.
  rewrite (wrap_size_small (num - 1)) by (rewrite size_modulus_value; lia).
  rewrite (wrap_size_small (num - 1 - _))
    by (rewrite size_modulus_value; Z.div_mod_to_equations; lia).
  rewrite wrap_size_small
    by (rewrite size_modulus_value; Z.div_mod_to_equations; lia).
  Z.div_mod_to_equations. lia.
Qed.

Lemma RoundToMultiple_bounds num :
  1 ≤ num ≤ size_modulus - 4 →
  num ≤ RoundToMultiple num kBaseSize < num + 4
  ∧ RoundToMultiple num kBaseSize mod kBaseSize = 0
  ∧ RoundToMultiple num kBaseSize ≤ size_modulus - 4.
Proof.
  intros Hnum. rewrite RoundToMultiple_base by done.
  rewrite size_modulus_value in *. unfold kBaseSize.
  repeat split; Z.div_mod_to_equations; lia.
Qed.

(** [RoundToMultiple] wraps to zero on the last three values of [size_t]. *)
Lemma RoundToMultiple_wraps num :
  size_modulus - 4 < num < size_modulus → RoundToMultiple num kBaseSize = 0.
Proof.
  intros Hnum. unfold RoundToMultiple, kBaseSize. simpl (4 =? 0).
  rewrite size_modulus_value in Hnum.
  rewrite (wrap_size_small (num - 1)) by (rewrite size_modulus_value; lia).
  assert (num = 18446744073709551613 ∨ num = 18446744073709551614
          ∨ num = 18446744073709551615) as [-> | [-> | ->]] by lia;
    reflexivity.
Qed.

(** ** Arrays and [memcpy_s] *)

Lemma assert_true (A : Type) (c : bool) (k : option A) :
  c = true → (assert c;; k) = k.
Proof. by intros ->. Qed.

Lemma assert_false (A : Type) (c : bool) (k : option A) :
  c = false → (assert c;; k) = None.
Proof. by intros ->. Qed.

Ltac test_holds :=
  repeat match goal with
    | |- negb _ = true => apply negb_true_iff
    | |- negb _ = false => apply negb_false_iff
    | |- (_ <=? _) = true => apply Z.leb_le
    | |- (_ <=? _) = false => apply Z.leb_gt
    | |- (_ <? _) = true => apply Z.ltb_lt
    | |- (_ <? _) = false => apply Z.ltb_ge
    | |- (_ =? _) = true => apply Z.eqb_eq
    | |- (_ =? _) = false => apply Z.eqb_neq
    end.

Ltac pass_assert := rewrite assert_true by (test_holds; first [done | lia]).

(** Linear arithmetic with the width of [size_t] made explicit. *)
Ltac size_lia := rewrite ?size_modulus_value in *; lia.

Lemma length_splice dest off src count :
  0 ≤ off → 0 ≤ count →
  off + count ≤ Z.of_nat (length dest) → count ≤ Z.of_nat (length src) →
  length (splice dest off src count) = length dest.
Proof.
  intros. unfold splice.
  rewrite !length_app, !length_take, length_drop. lia.
Qed.




Lemma splice_nothing dest off src :
  splice dest off src 0 = dest.
Proof.
  unfold splice. rewrite Z.add_0_r. simpl. apply take_drop.
Qed.

Lemma take_splice_front dest src count :
  0 ≤ count → count ≤ Z.of_nat (length src) →
  take (Z.to_nat count) (splice dest 0 src count) = take (Z.to_nat count) src.
Proof.
  intros. unfold splice. simpl.
  rewrite take_app_le by (rewrite length_take; lia).
  rewrite take_take. f_equal. lia.
Qed.

Lemma memcpy_s_copies dest off destsz src count :
  0 ≤ off → 0 ≤ count → (count ≠ 0 → addr dest ≠ 0) →
  count ≤ destsz →
  off + count ≤ Z.of_nat (length (bytes dest)) →
  count ≤ Z.of_nat (length src) →
  memcpy_s dest off destsz src count = Some (splice (bytes dest) off src count).
Proof.
  intros Hoff Hcount Hnull Hsz Hdest Hsrc. unfold memcpy_s.
  destruct (Z.eqb_spec count 0) as [-> | Hne].
  - by rewrite splice_nothing.
  - by repeat pass_assert.
Qed.

Lemma memcpy_s_null dest off destsz src count :
  count ≠ 0 → addr dest = 0 → memcpy_s dest off destsz src count = None.
Proof.
  intros Hcount Hnull. unfold memcpy_s.
  rewrite (proj2 (Z.eqb_neq _ _) Hcount), Hnull. reflexivity.
Qed.

(** ** Blocks: [Reserve] and [CopyData] *)

Arguments grown_capacity : simpl never.
Arguments RoundToMultiple : simpl never.
Arguments wrap_size : simpl never.
Arguments wrap_uint : simpl never.

Lemma grown_capacity_bounds capacity required :
  0 ≤ capacity < required → required ≤ size_modulus - 4 →
  required ≤ grown_capacity capacity required ≤ size_modulus - 4
  ∧ grown_capacity capacity required mod kBaseSize = 0.
Proof.
  intros Hcap Hreq. unfold grown_capacity.
  set (new_base := Z.max _ _).
  assert (1 ≤ new_base ≤ size_modulus - 4) as Hbase.
  { subst new_base. pose proof (wrap_size_range (capacity * 3)) as Hw.
    rewrite size_modulus_value in *. Z.div_mod_to_equations. lia. }
  destruct (RoundToMultiple_bounds new_base Hbase) as (Hle & Hmod & Hmax).
  subst new_base. split; [lia | done].
Qed.

Lemma Reserve_enough p b required :
  required ≤ capacity_ b → Reserve p b required = Some b.
Proof.
  intros Hle. unfold Reserve. by rewrite (proj2 (Z.leb_le _ _) Hle).
Qed.

Lemma Reserve_grows p b required :
  array_ok b → p ≠ 0 →
  capacity_ b < required → required ≤ size_modulus - 4 →
  Reserve p b required =
    Some (set_buffer b
            {| addr := p;
               bytes := take (Z.to_nat (size_ b)) (bytes (buffer_ b))
                        ++ replicate
                             (Z.to_nat (grown_capacity (capacity_ b) required
                                        - size_ b)) None |}
            (grown_capacity (capacity_ b) required)).
Proof.
  intros [Hlen Hsize Hcap Haddr] Hp Hlt Hreq. unfold Reserve.
  rewrite (proj2 (Z.leb_gt _ _) Hlt).
  fold (grown_capacity (capacity_ b) required).
  destruct (grown_capacity_bounds (capacity_ b) required) as [Hg _]; [lia.. |].
  rewrite memcpy_s_copies; simpl; rewrite ?length_replicate; try lia.
  unfold splice. simpl. rewrite drop_replicate, Z.add_0_l.
  by rewrite <- Z2Nat.inj_sub by lia.
Qed.

Lemma Reserve_array_ok p b b' required :
  array_ok b → p ≠ 0 → 0 ≤ required ≤ size_modulus - 4 →
  Reserve p b required = Some b' → array_ok b'.
Proof.
  intros Hok Hp Hreq Hres.
  destruct (Z.le_gt_cases required (capacity_ b)) as [Hle | Hlt].
  - rewrite Reserve_enough in Hres by done. by simplify_eq.
  - rewrite Reserve_grows in Hres by (done || lia). simplify_eq.
    destruct Hok as [Hlen Hsize Hcap Haddr].
    destruct (grown_capacity_bounds (capacity_ b) required) as [Hg _];
      [lia.. |].
    split; simpl; [| size_lia | size_lia | done].
    rewrite length_app, length_take, length_replicate. lia.
Qed.

Lemma Reserve_block_ok p b b' required :
  block_ok b → p ≠ 0 → 0 ≤ required ≤ size_modulus - 4 →
  Reserve p b required = Some b' → block_ok b'.
Proof.
  intros [Harr Hal Hcnt] Hp Hreq Hres.
  split; [by eapply Reserve_array_ok | |].
  - destruct (Z.le_gt_cases required (capacity_ b)) as [Hle | Hlt].
    + rewrite Reserve_enough in Hres by done. by simplify_eq.
    + rewrite Reserve_grows in Hres by (done || lia). simplify_eq. simpl.
      destruct Harr. apply grown_capacity_bounds; lia.
  - unfold Reserve in Hres. destruct (_ <=? _); [by simplify_eq |].
    destruct (memcpy_s _ _ _ _ _); simpl in Hres; by simplify_eq.
Qed.

Lemma CopyData_writes b str length pos :
  array_ok b → Unique b = true →
  0 ≤ pos ≤ size_ b → 0 ≤ length → pos + length ≤ capacity_ b →
  length ≤ Z.of_nat (List.length str) →
  CopyData b str length pos =
    Some (set_contents b (splice (bytes (buffer_ b)) pos str length)
            (Z.max (pos + length) (size_ b))).
Proof.
  intros [Hlen Hsize Hcap Haddr] Huniq Hpos Hn Hfit Hsrc. unfold CopyData.
  rewrite Huniq. simpl.
  rewrite (wrap_size_small (pos + length)) by lia.
  repeat pass_assert.
  rewrite memcpy_s_copies; [done | lia.. | | lia | lia | lia].
  intros Hne. apply Haddr. lia.
Qed.

Lemma CopyData_array_ok b b' str length pos :
  array_ok b → 0 ≤ pos → 0 ≤ length → pos + length < size_modulus →
  CopyData b str length pos = Some b' → array_ok b'.
Proof.
  intros [Hlen Hsize Hcap Haddr] Hpos Hn Hsum. unfold CopyData.
  destruct (Unique b); [simpl | done].
  destruct (Z.leb_spec pos (size_ b)); [simpl | done].
  rewrite (wrap_size_small (pos + length)) by lia.
  destruct (Z.leb_spec (pos + length) (capacity_ b)); [simpl | done].
  unfold memcpy_s. destruct (Z.eqb_spec length 0) as [-> | Hne]; simpl.
  - intros [= <-]. split; simpl; [done | lia | done | done].
  - destruct (negb _); [simpl | done].
    destruct (Z.leb_spec length (capacity_ b)); [simpl | done].
    destruct (Z.leb_spec (pos + length)
                (Z.of_nat (List.length (bytes (buffer_ b)))));
      [simpl | done].
    destruct (Z.leb_spec length (Z.of_nat (List.length str))); [simpl | done].
    intros [= <-]. split; simpl; [| lia | done | done].
    rewrite length_splice by lia. done.
Qed.

Lemma CopyData_block_ok b str length pos :
  block_ok b → Unique b = true →
  0 ≤ pos ≤ size_ b → 0 ≤ length → pos + length ≤ capacity_ b →
  length ≤ Z.of_nat (List.length str) →
  ∃ b', CopyData b str length pos = Some b'
        ∧ block_ok b'
        ∧ bytes (buffer_ b') = splice (bytes (buffer_ b)) pos str length
        ∧ size_ b' = Z.max (pos + length) (size_ b)
        ∧ capacity_ b' = capacity_ b
        ∧ data b' = data b
        ∧ ref_count_ b' = ref_count_ b.
Proof.
  intros [Harr Hal Hcnt] Huniq Hpos Hn Hfit Hsrc.
  eexists. split; [by apply CopyData_writes |].
  destruct Harr as [Hlen Hsize Hcap Haddr].
  repeat split; simpl; try done; try lia.
  rewrite length_splice by lia. done.
Qed.

(** ** Allocation *)

Lemma allocate_fresh (X : gset Z) : allocate X ∉ X.
Proof. apply is_fresh. Qed.

Lemma allocate_object (h : Heap) :
  allocate (used h) ≠ 0 ∧ h !! allocate (used h) = None.
Proof.
  pose proof (allocate_fresh (used h)) as Hfresh.
  set (a := allocate _) in *. clearbody a. unfold used in Hfresh.
  split.
  - intros ->. set_solver.
  - apply not_elem_of_dom. set_solver.
Qed.

Lemma live_arrays_lookup (h : Heap) i b :
  h !! i = Some b → data b ∈ live_arrays h.
Proof.
  intros Hi. unfold live_arrays. apply elem_of_map_img. exists i.
  by rewrite lookup_fmap, Hi.
Qed.

Lemma allocate_array (h : Heap) (a : Z) :
  allocate ({[a]} ∪ used h) ≠ 0
  ∧ allocate ({[a]} ∪ used h) ≠ a
  ∧ ∀ i b, h !! i = Some b → data b ≠ allocate ({[a]} ∪ used h).
Proof.
  pose proof (allocate_fresh ({[a]} ∪ used h)) as Hfresh.
  set (p := allocate _) in *. clearbody p. unfold used in Hfresh.
  split; [| split].
  - intros ->. set_solver.
  - intros ->. set_solver.
  - intros i b Hi <-. apply live_arrays_lookup in Hi. set_solver.
Qed.

Lemma allocate_array_in_place (h : Heap) :
  allocate (used h) ≠ 0
  ∧ ∀ i b, h !! i = Some b → data b ≠ allocate (used h).
Proof.
  pose proof (allocate_fresh (used h)) as Hfresh.
  set (p := allocate _) in *. clearbody p. unfold used in Hfresh.
  split.
  - intros ->. set_solver.
  - intros i b Hi <-. apply live_arrays_lookup in Hi. set_solver.
Qed.

(** ** Construction on storage that reads as zero *)

Lemma blank_ok : block_ok blank.
Proof. repeat split; simpl; done. Qed.

Lemma StringData_ctor_zeroed p capacity :
  p ≠ 0 → 0 ≤ capacity ≤ size_modulus - 4 →
  ∃ b, StringData_ctor 0 p capacity = Some b
       ∧ block_ok b ∧ size_ b = 0 ∧ ref_count_ b = 1
       ∧ capacity ≤ capacity_ b
       ∧ (capacity = 0 → b = blank)
       ∧ (0 < capacity → data b = p).
Proof.
  intros Hp Hcap. unfold StringData_ctor. fold blank.
  destruct (Z.le_gt_cases capacity 0) as [Hle | Hlt].
  - exists blank. rewrite Reserve_enough by done.
    repeat split; try done; simpl; lia.
  - pose proof blank_ok as [Harr ? ?].
    rewrite Reserve_grows by (done || simpl; lia).
    eexists. split; [done |]. simpl.
    destruct (grown_capacity_bounds 0 capacity) as [Hg Hmod]; [lia.. |].
    repeat split; simpl; try done; try size_lia.
    rewrite length_replicate. lia.
Qed.

Lemma new_StringData_zeroed capacity (h : Heap) :
  0 ≤ capacity ≤ size_modulus - 4 →
  ∃ a b, new_StringData 0 capacity h = Some (a, <[a := b]> h)
         ∧ a ≠ 0 ∧ h !! a = None
         ∧ block_ok b ∧ size_ b = 0 ∧ ref_count_ b = 1
         ∧ capacity ≤ capacity_ b
         ∧ (capacity = 0 → b = blank)
         ∧ (0 < capacity →
            data b ≠ 0 ∧ ∀ i x, h !! i = Some x → data x ≠ data b).
Proof.
  intros Hcap. unfold new_StringData.
  destruct (allocate_object h) as [Ha Hnone].
  destruct (allocate_array h (allocate (used h))) as (Hp & _ & Hlive).
  destruct (StringData_ctor_zeroed _ capacity Hp Hcap)
    as (b & -> & Hok & Hsz & Hrc & Hle & Hblank & Hdata).
  exists (allocate (used h)), b. simpl.
  do 8 (split; [done |]).
  intros Hpos. rewrite (Hdata Hpos). split; [done |].
  intros i x Hi. by eapply Hlive.
Qed.

Lemma invoke_at (h : Heap) this m b b' :
  h !! this = Some b → m b = Some b' →
  invoke this m h = Some (<[this := b']> h).
Proof. intros Hb Hm. unfold invoke. rewrite Hb. simpl. by rewrite Hm. Qed.

Lemma aligned_capacity_max b :
  block_ok b → 0 ≤ capacity_ b ≤ size_modulus - 4.
Proof.
  intros [[Hlen Hsize Hcap Haddr] Hal Hcnt]. unfold kBaseSize in Hal.
  rewrite size_modulus_value in *. Z.div_mod_to_equations. lia.
Qed.

Lemma Clone_zeroed (h : Heap) this b new_capacity :
  h !! this = Some b → block_ok b →
  0 ≤ new_capacity ≤ size_modulus - 4 →
  ∃ a c, Clone 0 this new_capacity h = Some (a, <[a := c]> h)
         ∧ a ≠ 0 ∧ h !! a = None
         ∧ block_ok c ∧ ref_count_ c = 1
         ∧ size_ c = size_ b
         ∧ take (Z.to_nat (size_ b)) (bytes (buffer_ c))
           = take (Z.to_nat (size_ b)) (bytes (buffer_ b))
         ∧ Z.max new_capacity (capacity_ b) ≤ capacity_ c
         ∧ (Z.max new_capacity (capacity_ b) = 0 → data c = 0)
         ∧ (0 < Z.max new_capacity (capacity_ b) →
            data c ≠ 0 ∧ ∀ i x, h !! i = Some x → data x ≠ data c).
Proof.
  intros Hthis Hok Hnew. unfold Clone. rewrite Hthis. simpl.
  pose proof (aligned_capacity_max b Hok) as Hcap.
  destruct (new_StringData_zeroed (Z.max new_capacity (capacity_ b)) h)
    as (a & d & -> & Ha & Hnone & Hd & Hsz & Hrc & Hle & Hblank & Hdata);
    [lia |].
  simpl. destruct Hok as [[Hlen Hsize Hc Haddr] Hal Hcnt].
  destruct (CopyData_block_ok d (bytes (buffer_ b)) (size_ b) 0)
    as (c & Hcopy & Hcok & Hbytes & Hcsz & Hccap & Hcdata & Hcrc);
    [done | by unfold Unique; rewrite Hrc | lia.. |].
  rewrite (invoke_at _ a _ d c) by (by rewrite ?lookup_insert_eq).
  simpl. rewrite insert_insert_eq. exists a, c.
  do 4 (split; [done |]). split; [congruence |].
  split; [lia |]. split.
  { rewrite Hbytes. apply take_splice_front; lia. }
  split; [lia |]. split.
  - intros Hzero. rewrite Hcdata, (Hblank Hzero). done.
  - intros Hpos. rewrite Hcdata. by apply Hdata.
Qed.

Lemma Reserve_result p b required :
  block_ok b → p ≠ 0 → 0 ≤ required ≤ size_modulus - 4 →
  ∃ b', Reserve p b required = Some b'
        ∧ block_ok b'
        ∧ size_ b' = size_ b ∧ ref_count_ b' = ref_count_ b
        ∧ take (Z.to_nat (size_ b)) (bytes (buffer_ b'))
          = take (Z.to_nat (size_ b)) (bytes (buffer_ b))
        ∧ required ≤ capacity_ b' ∧ capacity_ b ≤ capacity_ b'
        ∧ (required ≤ capacity_ b → b' = b)
        ∧ (capacity_ b < required → data b' = p).
Proof.
  intros Hok Hp Hreq.
  destruct (Z.le_gt_cases required (capacity_ b)) as [Hle | Hlt].
  - exists b. rewrite Reserve_enough by done.
    do 2 (split; [done |]). repeat split; try done; intros; lia.
  - pose proof Hok as [[Hlen Hsize Hcap Haddr] Hal Hcnt].
    destruct (Reserve p b required) as [b' |] eqn:Hres.
    2: { rewrite Reserve_grows in Hres by (done || lia). done. }
    exists b'. split; [done |].
    split; [by eapply Reserve_block_ok |].
    rewrite Reserve_grows in Hres by (done || lia). simplify_eq. simpl.
    destruct (grown_capacity_bounds (capacity_ b) required) as [Hg _];
      [lia.. |].
    repeat split; try done; try lia.
    apply take_app_length'. rewrite length_take. lia.
Qed.

(** ** The counter *)

Lemma Unique_false b :
  block_ok b → Unique b = false → 2 ≤ ref_count_ b < kUnsharedRefMark.
Proof.
  intros [_ _ Hcnt]. unfold Unique. intros [H1 H2]%orb_false_iff.
  apply Z.eqb_neq in H1, H2. lia.
Qed.

Lemma Release_shared b :
  1 ≤ ref_count_ b < kUnsharedRefMark →
  Release b =
    Some (ref_count_ b - 1 =? 0, set_ref_count b (ref_count_ b - 1)).
Proof.
  intros Hcnt. unfold Release, Unsharedable. pass_assert.
  rewrite (proj2 (Z.eqb_neq _ _)) by lia.
  unfold wrap_uint. rewrite kUnsharedRefMark_value in Hcnt.
  rewrite Z.mod_small by (unfold uint_modulus; lia). done.
Qed.

Lemma Release_exclusive b :
  ref_count_ b = kUnsharedRefMark → Release b = Some (true, b).
Proof.
  intros Hcnt. unfold Release, Unsharedable. rewrite Hcnt. done.
Qed.

Lemma ThreadSafe_Release_shared b :
  1 ≤ ref_count_ b < kUnsharedRefMark →
  ThreadSafeStringData.Release b =
    Some (false, set_ref_count b (ref_count_ b - 1)).
Proof.
  intros Hcnt.
  unfold ThreadSafeStringData.Release, ThreadSafeStringData.Unsharedable,
    Unsharedable, fetch_sub.
  pass_assert.
  rewrite (proj2 (Z.eqb_neq (ref_count_ b) kUnsharedRefMark)) by lia.
  rewrite (proj2 (Z.eqb_neq (ref_count_ b) 0)) by lia.
  unfold wrap_uint. rewrite kUnsharedRefMark_value in Hcnt.
  rewrite Z.mod_small by (unfold uint_modulus; lia). done.
Qed.

Lemma ThreadSafe_Release_exclusive b :
  ref_count_ b = kUnsharedRefMark →
  ThreadSafeStringData.Release b = Some (true, b).
Proof.
  intros Hcnt.
  unfold ThreadSafeStringData.Release, ThreadSafeStringData.Unsharedable,
    Unsharedable.
  rewrite Hcnt. done.
Qed.

Lemma set_ref_count_ok b n :
  block_ok b → 1 ≤ n ≤ kUnsharedRefMark → block_ok (set_ref_count b n).
Proof. intros [[????] ??] Hn. repeat split; simpl; done || lia. Qed.

(** ** The gate before a mutation *)

Lemma mark_for_range flag : 1 ≤ mark_for flag ≤ kUnsharedRefMark.
Proof. destruct flag; simpl; rewrite kUnsharedRefMark_value; lia. Qed.

Lemma PrepareToModify_in_place stale s required flag (h : Heap) b :
  h !! data_ s = Some b → block_ok b → Unique b = true →
  0 ≤ required ≤ size_modulus - 4 →
  ∃ b', Reserve (allocate (used h)) b required = Some b'
        ∧ PrepareToModify stale s required flag h
          = Some (s, <[data_ s := set_ref_count b' (mark_for flag)]> h).
Proof.
  intros Hs Hok Huniq Hreq. unfold PrepareToModify.
  rewrite Hs. simpl. rewrite Huniq. simpl.
  destruct (allocate_array_in_place h) as [Hp _].
  destruct (Reserve_result _ b required Hok Hp Hreq)
    as (b' & Hres & Hok' & Hsz & Hrc & _).
  exists b'. split; [done |].
  rewrite (invoke_at h _ _ b b') by done. simpl.
  assert (Unique b' = true) as Huniq' by (unfold Unique; by rewrite Hrc).
  rewrite (invoke_at _ _ _ b' (set_ref_count b' (mark_for flag))).
  - simpl. by rewrite insert_insert_eq.
  - apply lookup_insert_eq.
  - destruct flag; unfold MakeUnsharedable, ResetSharedable;
      by rewrite Huniq'.
Qed.

Lemma PrepareToModify_detach (h : Heap) s required flag b :
  h !! data_ s = Some b → block_ok b → Unique b = false →
  0 ≤ required ≤ size_modulus - 4 →
  ∃ a c, PrepareToModify 0 s required flag h
         = Some ({| data_ := a |},
                 <[a := set_ref_count c (mark_for flag)]>
                   (<[data_ s := set_ref_count b (ref_count_ b - 1)]> h))
         ∧ a ≠ 0 ∧ h !! a = None
         ∧ block_ok c ∧ ref_count_ c = 1
         ∧ size_ c = size_ b
         ∧ take (Z.to_nat (size_ b)) (bytes (buffer_ c))
           = take (Z.to_nat (size_ b)) (bytes (buffer_ b))
         ∧ Z.max required (capacity_ b) ≤ capacity_ c
         ∧ (Z.max required (capacity_ b) = 0 → data c = 0)
         ∧ (0 < Z.max required (capacity_ b) →
            data c ≠ 0 ∧ ∀ i x, h !! i = Some x → data x ≠ data c).
Proof.
  intros Hs Hok Huniq Hreq. unfold PrepareToModify.
  rewrite Hs. simpl. rewrite Huniq. simpl.
  destruct (Clone_zeroed h (data_ s) b required Hs Hok Hreq)
    as (a & c & Hclone & Ha & Hnone & Hc & Hrc & Hrest).
  exists a, c. split; [| by repeat (split; [done |])].
  rewrite Hclone. simpl.
  assert (a ≠ data_ s) as Hne by congruence.
  pose proof (Unique_false b Hok Huniq) as Hcnt.
  rewrite (invoke_at _ (data_ s) _ b (set_ref_count b (ref_count_ b - 1))).
  2: { by rewrite lookup_insert_ne. }
  2: { rewrite Release_shared by lia. done. }
  simpl.
  assert (Unique c = true) as Huniq' by (unfold Unique; by rewrite Hrc).
  rewrite (invoke_at _ a _ c (set_ref_count c (mark_for flag))).
  - simpl. f_equal. f_equal.
    rewrite (insert_insert_ne _ (data_ s) a) by done.
    by rewrite insert_insert_eq.
  - rewrite lookup_insert_ne by done. apply lookup_insert_eq.
  - destruct flag; unfold MakeUnsharedable, ResetSharedable;
      by rewrite Huniq'.
Qed.

(** ** [Append] *)

Lemma take_splice_end dest off src count :
  0 ≤ off → 0 ≤ count →
  off ≤ Z.of_nat (length dest) → count ≤ Z.of_nat (length src) →
  take (Z.to_nat (off + count)) (splice dest off src count)
  = take (Z.to_nat off) dest ++ take (Z.to_nat count) src.
Proof.
  intros. unfold splice. rewrite app_assoc.
  apply take_app_length'. rewrite length_app, !length_take. lia.
Qed.

Lemma CopyData_at_end b str length :
  block_ok b → Unique b = true → 0 ≤ length →
  size_ b + length ≤ capacity_ b → length ≤ Z.of_nat (List.length str) →
  ∃ b', CopyData b str length (size b) = Some b'
        ∧ block_ok b'
        ∧ size_ b' = size_ b + length
        ∧ take (Z.to_nat (size_ b + length)) (bytes (buffer_ b'))
          = take (Z.to_nat (size_ b)) (bytes (buffer_ b))
            ++ take (Z.to_nat length) str
        ∧ capacity_ b' = capacity_ b
        ∧ data b' = data b
        ∧ ref_count_ b' = ref_count_ b.
Proof.
  intros Hok Huniq Hn Hfit Hsrc. unfold size.
  pose proof Hok as [[Hlen Hsize Hcap Haddr] _ _].
  destruct (CopyData_block_ok b str length (size_ b))
    as (b' & Hcopy & Hok' & Hbytes & Hsz & Hc & Hd & Hrc);
    [done | done | lia.. |].
  exists b'. do 2 (split; [done |]). split; [lia |]. split; [| done].
  rewrite Hbytes. apply take_splice_end; lia.
Qed.

(** With a source outside the heap the characters appended do not depend on
    what [PrepareToModify] does to the heap. *)
Lemma Append_outside stale s str length (h : Heap) :
  Append stale s (Outside str) length h
  = (b ← h !! data_ s;
     '(s1, h1) ← PrepareToModify stale s (wrap_size (size b + length)) false h;
     h2 ← invoke (data_ s1) (λ x, CopyData x str length (size x)) h1;
     Some (s1, h2)).
Proof.
  unfold Append. destruct (h !! data_ s) as [b |]; [| done].
  cbn [mbind option_bind].
  destruct (PrepareToModify _ _ _ _ _) as [[s1 h1] |]; [| done].
  cbn [mbind option_bind read_source]. unfold invoke.
  by destruct (h1 !! data_ s1).
Qed.

Lemma Append_in_place stale s str length (h : Heap) b :
  h !! data_ s = Some b → block_ok b → Unique b = true →
  0 ≤ length ≤ Z.of_nat (List.length str) →
  size_ b + length ≤ size_modulus - 4 →
  ∃ b', Append stale s (Outside str) length h = Some (s, <[data_ s := b']> h)
        ∧ block_ok b' ∧ ref_count_ b' = 1
        ∧ size_ b' = size_ b + length
        ∧ take (Z.to_nat (size_ b + length)) (bytes (buffer_ b'))
          = take (Z.to_nat (size_ b)) (bytes (buffer_ b))
            ++ take (Z.to_nat length) str
        ∧ capacity_ b ≤ capacity_ b'
        ∧ (size_ b + length ≤ capacity_ b → data b' = data b).
Proof.
  intros Hs Hok Huniq Hn Hfit. rewrite Append_outside, Hs. simpl.
  pose proof Hok as [[Hlen Hsize Hcap Haddr] _ _].
  unfold size. rewrite wrap_size_small by size_lia.
  destruct (PrepareToModify_in_place stale s (size_ b + length) false h b)
    as (b1 & Hres & ->); [done | done | done | lia |].
  simpl.
  destruct (allocate_array_in_place h) as [Hp _].
  destruct (Reserve_result _ b (size_ b + length) Hok Hp)
    as (b1' & Hres' & Hok1 & Hsz1 & Hrc1 & Htake1 & Hreq1 & Hcap1 & Hsame & _);
    [lia |].
  rewrite Hres in Hres'. simplify_eq.
  pose proof (set_ref_count_ok b1' 1 Hok1 (mark_for_range false)) as Hok2.
  destruct (CopyData_at_end (set_ref_count b1' 1) str length)
    as (b2 & Hcopy & Hok3 & Hsz & Hbytes & Hc & Hd & Hrc);
    [done | done | lia | simpl; lia | lia |].
  simpl in *.
  rewrite (invoke_at _ _ _ (set_ref_count b1' 1) b2);
    [| apply lookup_insert_eq | done].
  simpl. rewrite insert_insert_eq. exists b2.
  split; [done |]. split; [done |]. split; [done |]. split; [lia |].
  split. { rewrite <- Htake1, <- Hsz1. done. }
  split; [lia |].
  intros Hle. rewrite Hd. by rewrite (Hsame Hle).
Qed.

Lemma Append_detach s str length (h : Heap) b :
  h !! data_ s = Some b → block_ok b → Unique b = false →
  0 ≤ length ≤ Z.of_nat (List.length str) →
  size_ b + length ≤ size_modulus - 4 →
  ∃ a b', Append 0 s (Outside str) length h
          = Some ({| data_ := a |},
                  <[a := b']>
                    (<[data_ s := set_ref_count b (ref_count_ b - 1)]> h))
          ∧ a ≠ 0 ∧ h !! a = None
          ∧ block_ok b' ∧ ref_count_ b' = 1
          ∧ size_ b' = size_ b + length
          ∧ take (Z.to_nat (size_ b + length)) (bytes (buffer_ b'))
            = take (Z.to_nat (size_ b)) (bytes (buffer_ b))
              ++ take (Z.to_nat length) str
          ∧ (capacity_ b = 0 → length = 0 → data b' = 0)
          ∧ (0 < capacity_ b ∨ 0 < length →
             data b' ≠ 0 ∧ ∀ i x, h !! i = Some x → data x ≠ data b').
Proof.
  intros Hs Hok Huniq Hn Hfit. rewrite Append_outside, Hs. simpl.
  pose proof Hok as [[Hlen Hsize Hcap Haddr] _ _].
  unfold size. rewrite wrap_size_small by size_lia.
  destruct (PrepareToModify_detach h s (size_ b + length) false b)
    as (a & c & -> & Ha & Hnone & Hc & Hrc & Hsz & Htake & Hmax & Hnull
        & Hlive);
    [done | done | done | lia |].
  simpl.
  pose proof (set_ref_count_ok c 1 Hc (mark_for_range false)) as Hok2.
  destruct (CopyData_at_end (set_ref_count c 1) str length)
    as (b2 & Hcopy & Hok3 & Hsz2 & Hbytes & Hc2 & Hd & Hrc2);
    [done | done | lia | simpl; lia | lia |].
  simpl in *.
  rewrite (invoke_at _ _ _ (set_ref_count c 1) b2);
    [| apply lookup_insert_eq | done].
  simpl. rewrite insert_insert_eq. exists a, b2.
  do 5 (split; [done |]). split; [lia |].
  split. { rewrite <- Htake, <- Hsz. done. }
  split.
  - intros Hzero Hlen0. rewrite Hd. apply Hnull. lia.
  - intros Hpos. rewrite Hd. apply Hlive. lia.
Qed.

(** ** Release under the two policies *)

Lemma release_all_S release (n : nat) b :
  release_all release (S n) b
  = ('(last, b') ← release b;
     rest ← release_all release n b';
     Some (last :: rest)).
Proof. reflexivity. Qed.

Lemma release_all_plain (n : nat) b :
  ref_count_ b = Z.of_nat (S n) → Z.of_nat (S n) < kUnsharedRefMark →
  release_all Release (S n) b = Some (replicate n false ++ [true]).
Proof.
  revert b. induction n as [| n IH]; intros b Hcnt Hlt.
  - simpl. rewrite Release_shared by lia. simpl. by rewrite Hcnt.
  - rewrite release_all_S, Release_shared by lia.
    cbn [mbind option_bind].
    rewrite (IH (set_ref_count b (ref_count_ b - 1))) by (simpl; lia).
    rewrite (proj2 (Z.eqb_neq _ _)) by lia. done.
Qed.

Lemma release_all_thread_safe (n : nat) b :
  ref_count_ b = Z.of_nat n → Z.of_nat n < kUnsharedRefMark →
  release_all ThreadSafeStringData.Release n b = Some (replicate n false).
Proof.
  revert b. induction n as [| n IH]; intros b Hcnt Hlt; [done |].
  rewrite release_all_S, ThreadSafe_Release_shared by lia.
  cbn [mbind option_bind].
  by rewrite (IH (set_ref_count b (ref_count_ b - 1))) by (simpl; lia).
Qed.

(** C1 (defect in the synchronized policy).  The last owner of a block,
    count 1, calls [Release]: the plain counter answers true, as documented,
    but the atomic one compares the value [fetch_sub] returns, which is the
    count before the decrement, with zero and answers false.  Of three
    holders releasing in turn the plain policy tells the last one to
    deallocate and the synchronized policy tells nobody. *)
Theorem ThreadSafe_Release_last_owner :
  Release blank = Some (true, set_ref_count blank 0)
  ∧ ThreadSafeStringData.Release blank = Some (false, set_ref_count blank 0)
  ∧ release_all Release 3 (set_ref_count blank 3)
    = Some [false; false; true]
  ∧ release_all ThreadSafeStringData.Release 3 (set_ref_count blank 3)
    = Some [false; false; false].
Proof. repeat split; reflexivity. Qed.

(** ** The queue *)

Lemma Enqueue_free (T : Type) (x : T) (xs : list T) :
  BlockingQueue.Enqueue x (BlockingQueue.mk false xs)
  = Some (BlockingQueue.mk false (xs ++ [x])).
Proof. reflexivity. Qed.

Lemma Dequeue_free (T : Type) (x : T) (xs : list T) :
  BlockingQueue.Dequeue (BlockingQueue.mk false (x :: xs))
  = Some (x, BlockingQueue.mk false xs).
Proof. reflexivity. Qed.

Lemma Enqueue_all_free (T : Type) (ys xs : list T) :
  BlockingQueue.Enqueue_all ys (BlockingQueue.mk false xs)
  = Some (BlockingQueue.mk false (xs ++ ys)).
Proof.
  revert xs. induction ys as [| y ys IH]; intros xs;
    cbn [BlockingQueue.Enqueue_all].
  - by rewrite app_nil_r.
  - rewrite Enqueue_free. cbn [mbind option_bind].
    rewrite IH. by rewrite <- app_assoc.
Qed.

Lemma Dequeue_n_free (T : Type) (xs ys : list T) :
  BlockingQueue.Dequeue_n (length xs) (BlockingQueue.mk false (xs ++ ys))
  = Some (xs, BlockingQueue.mk false ys).
Proof.
  induction xs as [| x xs IH]; [done |].
  cbn [BlockingQueue.Dequeue_n length].
  rewrite <- app_comm_cons, Dequeue_free. cbn [mbind option_bind].
  by rewrite IH.
Qed.

(** C9.  One thread enqueues 1, 2 and 3 and then dequeues three times: the
    calls return 1, 2, 3 and leave the queue empty.  In general [Enqueue]
    puts its item behind those already waiting, [Dequeue] returns the item
    that has waited longest and removes it, and so whatever is enqueued comes
    out in the order it went in. *)
Theorem BlockingQueue_fifo :
  (BlockingQueue.Enqueue_all [1; 2; 3] BlockingQueue.empty
     ≫= BlockingQueue.Dequeue_n 3)
  = Some ([1; 2; 3], BlockingQueue.empty)
  ∧ (∀ (T : Type) (x : T) (waiting : list T),
       BlockingQueue.Enqueue x (BlockingQueue.mk false waiting)
       = Some (BlockingQueue.mk false (waiting ++ [x])))
  ∧ (∀ (T : Type) (oldest : T) (rest : list T),
       BlockingQueue.Dequeue (BlockingQueue.mk false (oldest :: rest))
       = Some (oldest, BlockingQueue.mk false rest))
  ∧ (∀ (T : Type) (waiting items : list T),
       BlockingQueue.Enqueue_all items (BlockingQueue.mk false waiting)
         ≫= BlockingQueue.Dequeue_n (length waiting + length items)
       = Some (waiting ++ items, BlockingQueue.empty)).
Proof.
  split; [reflexivity |]. split; [apply Enqueue_free |].
  split; [apply Dequeue_free |].
  intros T waiting items. rewrite Enqueue_all_free. cbn [mbind option_bind].
  rewrite <- length_app.
  rewrite <- (app_nil_r (waiting ++ items)) at 2.
  apply Dequeue_n_free.
Qed.

Lemma Dequeue_empty_blocks (T : Type) :
  BlockingQueue.Dequeue (BlockingQueue.empty (T := T)) = None.
Proof. reflexivity. Qed.

(** ** [CopyData] *)



(** ** The detach branch of [PrepareToModify] *)

Lemma new_StringData_shape stale capacity (h : Heap) a h1 :
  new_StringData stale capacity h = Some (a, h1) →
  h !! a = None ∧ ∃ c, h1 = <[a := c]> h.
Proof.
  unfold new_StringData.
  destruct (StringData_ctor _ _ _) as [c |]; simpl; [| done].
  intros [= <- <-]. split; [apply allocate_object | by exists c].
Qed.

Lemma Clone_shape stale this new_capacity (h : Heap) a h1 :
  Clone stale this new_capacity h = Some (a, h1) →
  h !! a = None ∧ ∃ c, h1 = <[a := c]> h.
Proof.
  unfold Clone. destruct (h !! this) as [b |]; simpl; [| done].
  destruct (new_StringData _ _ _) as [[d h'] |] eqn:Hnew; simpl; [| done].
  apply new_StringData_shape in Hnew as [Hnone [c ->]].
  unfold invoke. rewrite lookup_insert_eq. simpl.
  destruct (CopyData _ _ _ _) as [c' |]; simpl; [| done].
  intros [= <- <-]. split; [done |]. exists c'. apply insert_insert_eq.
Qed.

Lemma PrepareToModify_detach_frame stale (h : Heap) s required flag b s' h' :
  h !! data_ s = Some b → 2 ≤ ref_count_ b < kUnsharedRefMark →
  PrepareToModify stale s required flag h = Some (s', h') →
  data_ s' ≠ data_ s
  ∧ h' !! data_ s = Some (set_ref_count b (ref_count_ b - 1)).
Proof.
  intros Hs Hcnt. unfold PrepareToModify. rewrite Hs. simpl.
  assert (Unique b = false) as ->.
  { unfold Unique. apply orb_false_iff. split; apply Z.eqb_neq; lia. }
  simpl.
  destruct (Clone _ _ _ _) as [[a h1] |] eqn:Hclone; simpl; [| done].
  apply Clone_shape in Hclone as [Hnone [c ->]].
  assert (a ≠ data_ s) as Hne by congruence.
  rewrite (invoke_at _ (data_ s) _ b (set_ref_count b (ref_count_ b - 1)));
    [| by rewrite lookup_insert_ne | by rewrite Release_shared by lia].
  simpl. unfold invoke.
  rewrite lookup_insert_ne, lookup_insert_eq by done. simpl.
  destruct (if flag then _ else _) as [c' |]; simpl; [| done].
  intros [= <- <-]. simpl. split; [done |].
  rewrite lookup_insert_ne by done. apply lookup_insert_eq.
Qed.

(** C10.  When [PrepareToModify] detaches, the block it leaves has a count of
    at least 2 and is not exclusive.  The plain [Release] on it answers
    false and leaves a count of at least 1, so dropping the answer loses
    nothing: whenever [PrepareToModify] returns, the handle has moved to
    another block and the old one is still on the heap with that count.  On
    storage that reads as zero the call does return. *)
Theorem PrepareToModify_detach_Release stale (h : Heap) s required flag b :
  h !! data_ s = Some b → 2 ≤ ref_count_ b < kUnsharedRefMark →
  Unique b = false
  ∧ Release b = Some (false, set_ref_count b (ref_count_ b - 1))
  ∧ 1 ≤ ref_count_ (set_ref_count b (ref_count_ b - 1))
  ∧ (∀ s' h', PrepareToModify stale s required flag h = Some (s', h') →
       data_ s' ≠ data_ s
       ∧ h' !! data_ s = Some (set_ref_count b (ref_count_ b - 1)))
  ∧ (stale = 0 → block_ok b → 0 ≤ required ≤ size_modulus - 4 →
     is_Some (PrepareToModify stale s required flag h)).
Proof.
  intros Hs Hcnt.
  assert (Unique b = false) as Huniq.
  { unfold Unique. apply orb_false_iff. split; apply Z.eqb_neq; lia. }
  split; [done |]. split.
  { rewrite Release_shared by lia.
    by rewrite (proj2 (Z.eqb_neq _ _)) by lia. }
  split; [simpl; lia |]. split.
  { intros s' h'. by apply PrepareToModify_detach_frame. }
  intros -> Hok Hreq.
  destruct (PrepareToModify_detach h s required flag b Hs Hok Huniq Hreq)
    as (a & c & -> & _). done.
Qed.

Lemma PrepareToModify_detach_Release_witness :
  let b := set_ref_count hello_block 2 in
  let h : Heap := {[1 := b]} in
  let s := {| data_ := 1 |} in
  Unique b = false
  ∧ Release b = Some (false, set_ref_count b (ref_count_ b - 1))
  ∧ 1 ≤ ref_count_ (set_ref_count b (ref_count_ b - 1))
  ∧ (∀ s' h', PrepareToModify 0 s 10 false h = Some (s', h') →
       data_ s' ≠ data_ s
       ∧ h' !! data_ s = Some (set_ref_count b (ref_count_ b - 1)))
  ∧ (0 = 0 → block_ok b → 0 ≤ 10 ≤ size_modulus - 4 →
     is_Some (PrepareToModify 0 s 10 false h)).
Proof.
  intros b h s.
  apply (PrepareToModify_detach_Release 0 h s 10 false b).
  - reflexivity.
  - vm_compute. split; [discriminate | reflexivity].
Defined.

(** ** [Reserve] against its documentation *)

Lemma Qceiling_quarter (m : Z) :
  Qceiling (inject_Z m / inject_Z 4)%Q = (m + 3) / 4.
Proof.
  unfold Qceiling.
  assert (- (inject_Z m / inject_Z 4) == inject_Z (- m) / inject_Z 4)%Q as ->.
  { unfold Qeq. simpl. lia. }
  rewrite <- Zdiv_Qdiv. Z.div_mod_to_equations. lia.
Qed.

Lemma documented_capacity_even capacity required :
  capacity mod 2 = 0 →
  documented_capacity capacity required
  = 4 * ((Z.max (capacity * 3 / 2) required + 3) / 4).
Proof.
  intros Heven. unfold documented_capacity, round_up_to_multiple. f_equal.
  rewrite <- Qceiling_quarter. apply Qceiling_comp.
  assert (times_one_and_a_half capacity == inject_Z (capacity * 3 / 2))%Q
    as Hhalf.
  { unfold times_one_and_a_half, Qeq. simpl. Z.div_mod_to_equations. lia. }
  apply Qdiv_comp; [| reflexivity].
  destruct (Q.max_spec (times_one_and_a_half capacity) (inject_Z required))
    as [[Hlt Heq] | [Hle Heq]]; rewrite Heq.
  - rewrite Hhalf in Hlt. rewrite <- Zlt_Qlt in Hlt. by rewrite Z.max_r by lia.
  - rewrite Hhalf in Hle. rewrite <- Zle_Qle in Hle. by rewrite Z.max_l by lia.
Qed.

Lemma grown_capacity_documented capacity required :
  capacity mod kBaseSize = 0 → capacity * 3 < size_modulus →
  0 ≤ capacity < required → required ≤ size_modulus - 4 →
  grown_capacity capacity required = documented_capacity capacity required.
Proof.
  intros Hal Hwide Hcap Hreq. unfold kBaseSize in Hal.
  rewrite documented_capacity_even by (Z.div_mod_to_equations; lia).
  unfold grown_capacity. rewrite wrap_size_small by lia.
  apply RoundToMultiple_base.
  rewrite size_modulus_value in *. Z.div_mod_to_equations. lia.
Qed.

(** C4, as the code has it.  For a well-formed block, a request of at most
    [SIZE_MAX - 3] and a capacity whose triple fits [size_t], [Reserve] does
    what is documented: nothing when the capacity suffices; otherwise the
    capacity becomes the larger of one and a half times the old one and the
    request, rounded up to a multiple of 4, the first [size] characters are
    carried over and the size stays; the capacity never decreases.
    [ThreadSafeStringData::Reserve] is the same function. *)
Theorem Reserve_grows_as_documented p b required_capacity :
  block_ok b → p ≠ 0 →
  0 ≤ required_capacity ≤ size_modulus - 4 →
  capacity_ b * 3 < size_modulus →
  Reserve_contract p b required_capacity
  ∧ ThreadSafeStringData.Reserve p b required_capacity
    = Reserve p b required_capacity.
Proof.
  intros Hok Hp Hreq Hwide. split; [| done].
  pose proof Hok as [[Hlen Hsize Hcap Haddr] Hal Hcnt].
  destruct (Reserve_result p b required_capacity Hok Hp Hreq)
    as (b' & Hres & Hok' & Hsz & Hrc & Htake & Hle & Hmono & Hsame & Hnew).
  split; [by apply Reserve_enough |]. split.
  - intros Hlt. exists b'. split; [done |]. split; [| done].
    rewrite Reserve_grows in Hres by (done || lia). simplify_eq. simpl.
    apply grown_capacity_documented; done || lia.
  - intros b'' Hres'. rewrite Hres in Hres'. by simplify_eq.
Qed.

Lemma Reserve_grows_as_documented_witness :
  Reserve_contract 3 hello_block 9
  ∧ ThreadSafeStringData.Reserve 3 hello_block 9 = Reserve 3 hello_block 9.
Proof.
  apply (Reserve_grows_as_documented 3 hello_block 9).
  - split; [split; simpl; [reflexivity | lia | reflexivity | discriminate]
           | reflexivity | vm_compute; split; discriminate].
  - discriminate.
  - rewrite size_modulus_value. lia.
  - reflexivity.
Defined.

(** C4, as it is stated, fails on the last values of [size_t]: asked for
    [SIZE_MAX], [RoundToMultiple] wraps around to 0 and [Reserve] replaces the
    array of an empty block of capacity 4 by one of capacity 0. *)
Lemma Reserve_contract_fails_at_size_max :
  Reserve 3 empty_block (size_modulus - 1)
  = Some (set_buffer empty_block {| addr := 3; bytes := [] |} 0)
  ∧ ¬ Reserve_contract 3 empty_block (size_modulus - 1).
Proof.
  assert (Reserve 3 empty_block (size_modulus - 1)
          = Some (set_buffer empty_block {| addr := 3; bytes := [] |} 0))
    as Hres by (vm_compute; reflexivity).
  split; [exact Hres |].
  intros (_ & _ & Hmono). apply Hmono in Hres. simpl in Hres. lia.
Qed.

(** The bound on the capacity is needed as well: [capacity_ * 3] wraps
    around for a capacity of [2^63], and a block of that capacity asked for
    one more character would grow to [2^63 + 4] rather than to one and a half
    times [2^63]. *)
Lemma grown_capacity_wraps :
  grown_capacity (2 ^ 63) (2 ^ 63 + 1) = 2 ^ 63 + 4
  ∧ documented_capacity (2 ^ 63) (2 ^ 63 + 1) = 3 * 2 ^ 62.
Proof. split; vm_compute; reflexivity. Qed.

(** ** Construction *)

Lemma RCString_from_zeroed str length (h : Heap) :
  0 ≤ length ≤ size_modulus - 4 →
  length ≤ Z.of_nat (List.length str) →
  ∃ a b, RCString_from 0 str length h = Some ({| data_ := a |}, <[a := b]> h)
         ∧ a ≠ 0 ∧ h !! a = None
         ∧ block_ok b ∧ ref_count_ b = 1
         ∧ size_ b = length
         ∧ take (Z.to_nat length) (bytes (buffer_ b))
           = take (Z.to_nat length) str.
Proof.
  intros Hn Hsrc. unfold RCString_from.
  destruct (new_StringData_zeroed length h Hn)
    as (a & d & -> & Ha & Hnone & Hd & Hsz & Hrc & Hle & _).
  simpl.
  destruct (CopyData_block_ok d str length 0)
    as (b & Hcopy & Hok & Hbytes & Hbsz & _ & _ & Hbrc);
    [done | by unfold Unique; rewrite Hrc | lia.. |].
  rewrite (invoke_at _ a _ d b) by (by rewrite ?lookup_insert_eq).
  simpl. rewrite insert_insert_eq. exists a, b.
  do 4 (split; [done |]). split; [congruence |]. split; [lia |].
  rewrite Hbytes. apply take_splice_front; lia.
Qed.

Lemma RCString_default_zeroed (h : Heap) :
  ∃ a b, RCString_default 0 h = Some ({| data_ := a |}, <[a := b]> h)
         ∧ h !! a = None ∧ block_ok b ∧ ref_count_ b = 1 ∧ size_ b = 0
         ∧ capacity_ b = 4.
Proof.
  unfold RCString_default, new_StringData.
  destruct (allocate_object h) as [Ha Hnone].
  destruct (allocate_array h (allocate (used h))) as (Hp & _ & _).
  unfold StringData_ctor. fold blank.
  pose proof blank_ok as Hblank. pose proof Hblank as [Harr _ _].
  rewrite Reserve_grows by (done || simpl; rewrite ?size_modulus_value; lia).
  simpl. eexists _, _. split; [done |]. split; [done |].
  assert (grown_capacity 0 kBaseSize = 4) as Hg by reflexivity.
  simpl capacity_. rewrite Hg.
  repeat split; simpl; done.
Qed.

(** A request that does not exceed the value found in [capacity_] allocates
    nothing, and the copy into the missing array stops the run. *)
Lemma StringData_ctor_stale stale p capacity :
  capacity ≤ stale →
  StringData_ctor stale p capacity = Some (stale_block stale).
Proof. intros Hle. unfold StringData_ctor. by apply Reserve_enough. Qed.

Lemma RCString_from_stale stale str length (h : Heap) :
  0 < length ≤ stale → RCString_from stale str length h = None.
Proof.
  intros Hn. unfold RCString_from, new_StringData.
  rewrite StringData_ctor_stale by lia. simpl.
  unfold invoke. rewrite lookup_insert_eq. simpl.
  unfold CopyData. simpl.
  destruct (wrap_size (0 + length) <=? stale); simpl; [| done].
  rewrite memcpy_s_null; [done | lia | done].
Qed.

(** C3 (defect in the constructor).  [StringData(capacity)] initialises
    [size_] and [ref_count_] and then calls [Reserve], which compares the
    request with [capacity_] before anything has been stored there.  When
    the storage holds 8, [new StringData(5)] allocates no array and
    [RCString("hello", 5)] stops in [memcpy_s] on the null destination; when
    it holds 0 the handle has size 5 and the five characters. *)
Theorem RCString_from_stale_capacity :
  StringData_ctor 8 3 5 = Some (stale_block 8)
  ∧ RCString_from 8 hello 5 ∅ = None
  ∧ RCString_from 0 hello 5 ∅
    = Some ({| data_ := 1 |}, {[1 := hello_block]}).
Proof. repeat split; vm_compute; reflexivity. Qed.

(** C7 (same defect as C3).  The block that [new StringData(5)] builds when
    8 is found in [capacity_] is [Unique()], and position 0 with length 5
    meets [pos <= size] and [pos + length <= capacity]; yet [CopyData], in
    either class, writes no character and sets no size: the block has no
    array, and the call stops in [memcpy_s] on the null destination.  On the
    block built when [capacity_] reads as zero the same call returns with
    size 5 and the five characters. *)
Theorem CopyData_on_stale_block :
  StringData_ctor 8 3 5 = Some (stale_block 8)
  ∧ Unique (stale_block 8) = true
  ∧ 0 ≤ size_ (stale_block 8)
  ∧ 0 + 5 ≤ capacity_ (stale_block 8)
  ∧ CopyData (stale_block 8) hello 5 0 = None
  ∧ ThreadSafeStringData.CopyData (stale_block 8) hello 5 0 = None
  ∧ (StringData_ctor 0 2 5 ≫= λ b, CopyData b hello 5 0) = Some hello_block.
Proof.
  split; [vm_compute; reflexivity |]. split; [reflexivity |].
  split; [simpl; lia |]. split; [simpl; lia |].
  repeat split; vm_compute; reflexivity.
Qed.

(** ** The growth invariant along a run of [Append] calls *)

Lemma Append_zeroed s str length (h : Heap) b :
  h !! data_ s = Some b → block_ok b →
  0 ≤ length ≤ Z.of_nat (List.length str) →
  size_ b + length ≤ size_modulus - 4 →
  ∃ s' h' b', Append 0 s (Outside str) length h = Some (s', h')
              ∧ h' !! data_ s' = Some b'
              ∧ block_ok b' ∧ ref_count_ b' = 1
              ∧ size_ b' = size_ b + length
              ∧ take (Z.to_nat (size_ b + length)) (bytes (buffer_ b'))
                = take (Z.to_nat (size_ b)) (bytes (buffer_ b))
                  ++ take (Z.to_nat length) str.
Proof.
  intros Hs Hok Hn Hfit. destruct (Unique b) eqn:Huniq.
  - destruct (Append_in_place 0 s str length h b Hs Hok Huniq Hn Hfit)
      as (b' & -> & Hok' & Hrc & Hsz & Htake & _).
    exists s, (<[data_ s := b']> h), b'.
    split; [done |]. split; [apply lookup_insert_eq | done].
  - destruct (Append_detach s str length h b Hs Hok Huniq Hn Hfit)
      as (a & b' & -> & _ & _ & Hok' & Hrc & Hsz & Htake & _).
    eexists _, _, b'.
    split; [done |]. split; [apply lookup_insert_eq | done].
Qed.

Lemma block_ok_capacity_invariant (h : Heap) s b :
  h !! data_ s = Some b → block_ok b → capacity_invariant (s, h).
Proof.
  intros Hs [[_ Hsize _ _] Hal _]. exists b. simpl.
  split; [done |]. split; [done | lia].
Qed.

(** On storage that reads as zero, a run of [Append] calls whose total stays
    below [SIZE_MAX - 3] returns, and after every call the capacity is a
    multiple of 4 and at least the size. *)
Lemma Append_all_zeroed strs s (h : Heap) b :
  h !! data_ s = Some b → block_ok b →
  size_ b + total_length strs ≤ size_modulus - 4 →
  ∃ trace, Append_all 0 strs s h = Some trace
           ∧ List.length trace = List.length strs
           ∧ Forall capacity_invariant trace.
Proof.
  revert s h b. induction strs as [| str strs IH]; intros s h b Hs Hok Hfit.
  - exists []. split; [done |]. split; [done | constructor].
  - cbn [total_length foldr] in Hfit. fold (total_length strs) in Hfit.
    assert (0 ≤ total_length strs) as Hpos.
    { clear. induction strs as [| x xs IHxs]; simpl; lia. }
    destruct (Append_zeroed s str (Z.of_nat (List.length str)) h b)
      as (s' & h' & b' & Happ & Hs' & Hok' & _ & Hsz & _);
      [done | done | lia | lia |].
    destruct (IH s' h' b' Hs' Hok') as (trace & Hall & Hlen & Hinv); [lia |].
    exists ((s', h') :: trace). cbn [Append_all].
    rewrite Happ. cbn [mbind option_bind]. rewrite Hall.
    split; [done |]. split; [simpl; by rewrite Hlen |].
    constructor; [| done]. by eapply block_ok_capacity_invariant.
Qed.

(** C8 (same defect as C3).  With 7 found in [capacity_], [RCString()] asks
    for 4 characters, gets no array and keeps 7 for a capacity; an empty
    [Append] returns with that capacity, which is not a multiple of 4, and an
    [Append] of five characters stops in [memcpy_s] on the null array. *)
Theorem Append_on_stale_capacity :
  RCString_default 7 ∅ = Some ({| data_ := 1 |}, {[1 := stale_block 7]})
  ∧ Append 7 {| data_ := 1 |} (Outside []) 0 {[1 := stale_block 7]}
    = Some ({| data_ := 1 |}, {[1 := stale_block 7]})
  ∧ ¬ capacity_invariant ({| data_ := 1 |}, {[1 := stale_block 7]})
  ∧ Append 7 {| data_ := 1 |} (Outside hello) 5 {[1 := stale_block 7]} = None.
Proof.
  split; [vm_compute; reflexivity |]. split; [vm_compute; reflexivity |].
  split; [| vm_compute; reflexivity].
  intros (b & Hb & Hal & _). simpl in Hb.
  rewrite lookup_singleton_eq in Hb. injection Hb as <-. discriminate Hal.
Qed.

(** ** Copy construction *)

Lemma AddRef_shared b :
  1 ≤ ref_count_ b < kUnsharedRefMark →
  AddRef b = Some (set_ref_count b (ref_count_ b + 1)).
Proof.
  intros Hcnt. unfold AddRef. pass_assert.
  unfold wrap_uint. rewrite kUnsharedRefMark_value in Hcnt.
  rewrite Z.mod_small by (unfold uint_modulus; lia). done.
Qed.

Lemma RCString_copy_shares stale (h : Heap) A b :
  h !! data_ A = Some b → 1 ≤ ref_count_ b < kUnsharedRefMark →
  RCString_copy stale A h
  = Some ({| data_ := data_ A |},
          <[data_ A := set_ref_count b (ref_count_ b + 1)]> h).
Proof.
  intros Hs Hcnt. unfold RCString_copy. rewrite Hs. simpl.
  unfold Unsharedable. rewrite (proj2 (Z.eqb_neq _ _)) by lia. simpl.
  by rewrite (invoke_at h _ _ b (set_ref_count b (ref_count_ b + 1)))
    by (done || by apply AddRef_shared).
Qed.

Lemma RCString_copy_clones (h : Heap) A b :
  h !! data_ A = Some b → block_ok b → ref_count_ b = kUnsharedRefMark →
  ∃ a c, RCString_copy 0 A h = Some ({| data_ := a |}, <[a := c]> h)
         ∧ a ≠ 0 ∧ h !! a = None
         ∧ block_ok c ∧ ref_count_ c = 1
         ∧ size_ c = size_ b
         ∧ take (Z.to_nat (size_ b)) (bytes (buffer_ c))
           = take (Z.to_nat (size_ b)) (bytes (buffer_ b))
         ∧ (0 < capacity_ b →
            data c ≠ 0 ∧ ∀ i x, h !! i = Some x → data x ≠ data c).
Proof.
  intros Hs Hok Hcnt. unfold RCString_copy. rewrite Hs. simpl.
  unfold Unsharedable. rewrite Hcnt, Z.eqb_refl. simpl.
  pose proof Hok as [[Hlen Hsize Hcap Haddr] _ _].
  pose proof (aligned_capacity_max b Hok) as Hmax.
  destruct (Clone_zeroed h (data_ A) b (size b) Hs Hok)
    as (a & c & -> & Ha & Hnone & Hc & Hrc & Hsz & Htake & _ & _ & Hlive);
    [unfold size; lia |].
  simpl. exists a, c. do 7 (split; [done |]).
  intros Hpos. apply Hlive. unfold size. lia.
Qed.

(** C5, as the code has it.  On storage that reads as zero, copy
    construction from a handle whose block is well formed and whose count is
    not [kUnsharedRefMark - 1] does what is documented: a block that is not
    unsharedable is adopted and its count incremented, after which it is not
    [Unique()] and the two handles have the same [data()]; an unsharedable
    block is left as it is and the copy gets a block of its own, new on the
    heap, with the same size, the same first [size] characters and a count
    of 1. *)
Theorem RCString_copy_contract stale (h : Heap) A b :
  h !! data_ A = Some b → block_ok b →
  (Unsharedable b = true → stale = 0) →
  ref_count_ b ≠ kUnsharedRefMark - 1 →
  copy_contract stale h A.
Proof.
  intros Hs Hok Hg Hcrowd. exists b.
  pose proof Hok as [_ _ Hcnt].
  destruct (Unsharedable b) eqn:Hun; unfold Unsharedable in Hun.
  - rewrite Hg by done. apply Z.eqb_eq in Hun.
    destruct (RCString_copy_clones h A b Hs Hok Hun)
      as (a & c & Hcopy & Ha & Hnone & Hc & Hrc & Hsz & Htake & _).
    exists {| data_ := a |}, (<[a := c]> h).
    do 2 (split; [done |]). simpl. split; [done |]. split.
    { rewrite lookup_insert_ne by congruence. done. }
    exists c. split; [apply lookup_insert_eq |]. do 2 (split; [done |]).
    unfold state_of, Unsharedable. by rewrite Hrc.
  - apply Z.eqb_neq in Hun.
    rewrite (RCString_copy_shares stale h A b Hs) by lia.
    eexists _, _. do 2 (split; [done |]). simpl. split; [done |].
    eexists. split; [apply lookup_insert_eq |]. split; [done |].
    split; [| done].
    unfold Unique. simpl. apply orb_false_iff. split; apply Z.eqb_neq; lia.
Qed.

Lemma RCString_copy_contract_witness :
  copy_contract 0 {[1 := hello_block]} {| data_ := 1 |}
  ∧ copy_contract 0 {[1 := exclusive_block]} {| data_ := 1 |}.
Proof.
  split.
  - apply (RCString_copy_contract 0 {[1 := hello_block]} {| data_ := 1 |}
             hello_block).
    + reflexivity.
    + split; [split; simpl; [reflexivity | lia | reflexivity | discriminate]
             | reflexivity | vm_compute; split; discriminate].
    + reflexivity.
    + discriminate.
  - apply (RCString_copy_contract 0 {[1 := exclusive_block]} {| data_ := 1 |}
             exclusive_block).
    + reflexivity.
    + split; [split; simpl; [reflexivity | lia | reflexivity | discriminate]
             | reflexivity | vm_compute; split; discriminate].
    + reflexivity.
    + discriminate.
Defined.

(** C5, as it is stated, fails for a block held by [kUnsharedRefMark - 1]
    handles: the increment of the copy takes the counter to the mark, and the
    block that was just shared reports [Unique()] and [Unsharedable()]. *)
Lemma RCString_copy_reaches_mark :
  RCString_copy 0 {| data_ := 1 |} {[1 := crowded_block]}
  = Some ({| data_ := 1 |}, {[1 := exclusive_block]})
  ∧ Unique exclusive_block = true
  ∧ ¬ copy_contract 0 {[1 := crowded_block]} {| data_ := 1 |}.
Proof.
  assert (RCString_copy 0 {| data_ := 1 |} {[1 := crowded_block]}
          = Some ({| data_ := 1 |}, {[1 := exclusive_block]})) as Hcopy
    by (vm_compute; reflexivity).
  split; [exact Hcopy |]. split; [reflexivity |].
  intros (b & B & h' & Hb & Hcopy' & Hrest).
  rewrite lookup_singleton_eq in Hb. injection Hb as <-.
  rewrite Hcopy in Hcopy'. injection Hcopy' as <- <-.
  change (Unsharedable crowded_block) with false in Hrest.
  destruct Hrest as (_ & b' & Hb' & _ & Huniq & _).
  rewrite lookup_singleton_eq in Hb'. injection Hb' as <-.
  discriminate Huniq.
Qed.

(** ** Detach on write *)




(** ** After a mutable indexed access *)

Lemma set_ref_count_same b : set_ref_count b (ref_count_ b) = b.
Proof. by destruct b. Qed.

Lemma RCString_at_mut_exclusive (h0 : Heap) A0 pos b0 r A h :
  h0 !! data_ A0 = Some b0 → block_ok b0 → 0 ≤ pos →
  RCString_at_mut 0 A0 pos h0 = Some (r, A, h) →
  ∃ b, exclusive_at h A b ∧ pos < capacity_ b ∧ r = data b + pos.
Proof.
  intros Hs Hok Hpos. unfold RCString_at_mut. rewrite Hs. simpl.
  pose proof Hok as [[Hlen Hsize Hcap Haddr] _ _].
  pose proof (aligned_capacity_max b0 Hok) as Hmax.
  assert (0 ≤ size b0 ≤ size_modulus - 4) as Hreq by (unfold size; lia).
  destruct (Unique b0) eqn:Huniq.
  - destruct (PrepareToModify_in_place 0 A0 (size b0) true h0 b0)
      as (b1 & Hres & ->); [done.. |].
    rewrite Reserve_enough in Hres by (unfold size; lia). simplify_eq.
    simpl. rewrite lookup_insert_eq. simpl.
    destruct (Z.ltb_spec pos (Z.of_nat (List.length (bytes (buffer_ b1)))));
      simpl; [| done].
    intros [= <- <- <-]. exists (set_ref_count b1 kUnsharedRefMark).
    split; [| split; [simpl; lia | done]].
    split; [apply lookup_insert_eq |].
    split; [apply set_ref_count_ok; [done | apply (mark_for_range true)] |].
    split; [done | simpl; lia].
  - destruct (PrepareToModify_detach h0 A0 (size b0) true b0)
      as (a & c & -> & _ & _ & Hc & _ & _ & _ & _);
      [done.. |].
    simpl. rewrite lookup_insert_eq. simpl.
    pose proof Hc as [[Hclen _ _ _] _ _].
    destruct (Z.ltb_spec pos (Z.of_nat (List.length (bytes (buffer_ c)))));
      simpl; [| done].
    intros [= <- <- <-]. exists (set_ref_count c kUnsharedRefMark).
    split; [| split; [simpl; lia | done]].
    split; [apply lookup_insert_eq |].
    split; [apply set_ref_count_ok; [done | apply (mark_for_range true)] |].
    split; [done | simpl; lia].
Qed.

Lemma RCString_at_mut_again (h : Heap) A b pos :
  exclusive_at h A b →
  RCString_at_mut 0 A pos h
  = (assert (pos <? capacity_ b);; Some (data b + pos, A, h)).
Proof.
  intros (Hs & Hok & Hcnt & Hcap). unfold RCString_at_mut.
  rewrite Hs. simpl.
  pose proof Hok as [[Hlen Hsize _ _] _ _].
  pose proof (aligned_capacity_max b Hok) as Hmax.
  destruct (PrepareToModify_in_place 0 A (size b) true h b)
    as (b1 & Hres & ->);
    [done | done | by unfold Unique; rewrite Hcnt, Z.eqb_refl, orb_true_r
    | unfold size; lia |].
  rewrite Reserve_enough in Hres by (unfold size; lia). simplify_eq.
  simpl. rewrite <- Hcnt, set_ref_count_same, insert_id by done.
  rewrite Hs. simpl. by rewrite Hlen.
Qed.

Lemma RCString_copy_of_exclusive (h : Heap) A b :
  exclusive_at h A b →
  ∃ C h' c, RCString_copy 0 A h = Some (C, h')
            ∧ data_ C ≠ data_ A
            ∧ h' !! data_ C = Some c
            ∧ data c ≠ data b
            ∧ exclusive_at h' A b.
Proof.
  intros (Hs & Hok & Hcnt & Hcap).
  destruct (RCString_copy_clones h A b Hs Hok Hcnt)
    as (a & c & Hcopy & Ha & Hnone & Hc & Hrc & Hsz & Htake & Hlive).
  assert (a ≠ data_ A) as Hne by congruence.
  exists {| data_ := a |}, (<[a := c]> h), c.
  split; [done |]. split; [done |]. split; [apply lookup_insert_eq |].
  split.
  { destruct (Hlive Hcap) as [_ Hdiff]. intros Heq.
    by apply (Hdiff (data_ A) b). }
  split; [| done]. simpl. by rewrite lookup_insert_ne.
Qed.

Lemma run_op_exclusive (h : Heap) A b o A' h' :
  exclusive_at h A b → is_append o = false →
  run_op 0 o A h = Some (A', h') →
  A' = A ∧ exclusive_at h' A b.
Proof.
  intros Hex Hop.
  destruct o as [str n | pos | pos | | |]; simpl in *; try done.
  - rewrite (RCString_at_mut_again h A b pos Hex).
    destruct (pos <? capacity_ b); simpl; [| done]. by intros [= <- <-].
  - destruct (RCString_at A pos h); simpl; [| done]. by intros [= <- <-].
  - destruct (RCString_data A h); simpl; [| done]. by intros [= <- <-].
  - destruct (RCString_size A h); simpl; [| done]. by intros [= <- <-].
  - destruct (RCString_copy_of_exclusive h A b Hex)
      as (C & h1 & c & -> & _ & _ & _ & Hex').
    simpl. by intros [= <- <-].
Qed.

Lemma run_op_returns (h : Heap) A b o :
  exclusive_at h A b → is_append o = false →
  in_range (capacity_ b) o = true →
  is_Some (run_op 0 o A h).
Proof.
  intros Hex Hop Hin. pose proof Hex as (Hs & Hok & Hcnt & Hcap).
  pose proof Hok as [[Hlen _ _ _] _ _].
  destruct o as [str n | pos | pos | | |]; simpl in *; try done.
  - apply andb_true_iff in Hin as [_ Hlt].
    rewrite (RCString_at_mut_again h A b pos Hex), Hlt. done.
  - apply andb_true_iff in Hin as [Hge%Z.leb_le Hlt%Z.ltb_lt].
    unfold RCString_at. rewrite Hs. simpl.
    destruct (lookup_lt_is_Some_2 (bytes (buffer_ b)) (Z.to_nat pos))
      as [x ->]; [lia | done].
  - unfold RCString_data. by rewrite Hs.
  - unfold RCString_size. by rewrite Hs.
  - destruct (RCString_copy_of_exclusive h A b Hex)
      as (C & h1 & c & -> & _). done.
Qed.

Lemma run_ops_exclusive ops (h : Heap) A b A' h' :
  exclusive_at h A b → forallb (negb ∘ is_append) ops = true →
  run_ops 0 ops A h = Some (A', h') →
  A' = A ∧ exclusive_at h' A b.
Proof.
  revert h. induction ops as [| o ops IH]; intros h Hex Hops; simpl.
  - by intros [= <- <-].
  - simpl in Hops. apply andb_true_iff in Hops as [Ho%negb_true_iff Hops].
    destruct (run_op 0 o A h) as [[A1 h1] |] eqn:Hrun; simpl; [| done].
    destruct (run_op_exclusive h A b o A1 h1 Hex Ho Hrun) as [-> Hex1].
    by apply IH.
Qed.

Lemma run_ops_returns ops (h : Heap) A b :
  exclusive_at h A b → forallb (negb ∘ is_append) ops = true →
  forallb (in_range (capacity_ b)) ops = true →
  is_Some (run_ops 0 ops A h).
Proof.
  revert h. induction ops as [| o ops IH]; intros h Hex Hops Hin; simpl;
    [done |].
  simpl in Hops, Hin.
  apply andb_true_iff in Hops as [Ho%negb_true_iff Hops].
  apply andb_true_iff in Hin as [Hino Hin].
  destruct (run_op_returns h A b o Hex Ho Hino) as [[A1 h1] Hrun].
  rewrite Hrun. simpl.
  destruct (run_op_exclusive h A b o A1 h1 Hex Ho Hrun) as [-> Hex1].
  by apply IH.
Qed.

(** C2, as the code has it.  After a mutable indexed access on a handle
    with a well-formed block, on storage that reads as zero, the handle
    holds an unsharedable block.  Whatever public operations other than
    [Append] follow on the handle (further mutable accesses, reads, copies
    taken from it), the handle keeps that block, the block stays
    unsharedable, and a copy taken afterwards is a new block whose [data()]
    differs from the handle's.  Those operations return whenever their
    positions lie in the array. *)
Theorem RCString_at_mut_stays_exclusive stale (h0 : Heap) A0 b0 pos r A h ops :
  stale = 0 → h0 !! data_ A0 = Some b0 → block_ok b0 → 0 ≤ pos →
  RCString_at_mut stale A0 pos h0 = Some (r, A, h) →
  forallb (negb ∘ is_append) ops = true →
  stays_exclusive stale h A ops
  ∧ ∃ b, h !! data_ A = Some b
         ∧ Unsharedable b = true
         ∧ (forallb (in_range (capacity_ b)) ops = true →
            is_Some (run_ops stale ops A h)).
Proof.
  intros -> Hs Hok Hpos Hat Hops.
  destruct (RCString_at_mut_exclusive h0 A0 pos b0 r A h Hs Hok Hpos Hat)
    as (b & Hex & _ & _).
  split.
  - intros A' h' Hrun.
    destruct (run_ops_exclusive ops h A b A' h' Hex Hops Hrun) as [-> Hex'].
    destruct (RCString_copy_of_exclusive h' A b Hex')
      as (C & h'' & c & Hcopy & Hne & HC & Hdata & _).
    destruct Hex' as (Hb & _ & Hcnt & _).
    exists b, C, h'', c. split; [done |].
    split; [by unfold Unsharedable; rewrite Hcnt, Z.eqb_refl | done].
  - pose proof Hex as (Hb & _ & Hcnt & _). exists b. split; [done |].
    split; [by unfold Unsharedable; rewrite Hcnt, Z.eqb_refl |].
    intros Hin. by eapply run_ops_returns.
Qed.

Lemma RCString_at_mut_stays_exclusive_witness :
  let ops := [OpCopy; OpAtMut 7; OpAt 2; OpSize; OpData] in
  let h : Heap := {[1 := exclusive_block]} in
  stays_exclusive 0 h {| data_ := 1 |} ops
  ∧ ∃ b, h !! 1 = Some b
         ∧ Unsharedable b = true
         ∧ (forallb (in_range (capacity_ b)) ops = true →
            is_Some (run_ops 0 ops {| data_ := 1 |} h)).
Proof.
  intros ops h.
  apply (RCString_at_mut_stays_exclusive 0 {[1 := hello_block]}
           {| data_ := 1 |} hello_block 0 2 {| data_ := 1 |} h ops).
  - reflexivity.
  - reflexivity.
  - split; [split; simpl; [reflexivity | lia | reflexivity | discriminate]
           | reflexivity | vm_compute; split; discriminate].
  - lia.
  - vm_compute. reflexivity.
  - reflexivity.
Defined.

(** C2, as it is stated, fails at the first [Append]: [PrepareToModify] is
    called with [make_unsharedable] false and calls [ResetSharedable], so the
    block is shareable again and the next copy adopts it; the copy has the
    [data()] of the original. *)
Lemma Append_resets_exclusive :
  RCString_at_mut 0 {| data_ := 1 |} 0 {[1 := hello_block]}
  = Some (2, {| data_ := 1 |}, {[1 := exclusive_block]})
  ∧ (run_ops 0 [OpAppend (Outside hello) 3] {| data_ := 1 |} {[1 := exclusive_block]}
       ≫= λ '(A, h), b ← h !! data_ A; Some (A, Unsharedable b))
    = Some ({| data_ := 1 |}, false)
  ∧ ¬ stays_exclusive 0 {[1 := exclusive_block]} {| data_ := 1 |}
        [OpAppend (Outside hello) 3].
Proof.
  split; [vm_compute; reflexivity |]. split; [vm_compute; reflexivity |].
  intros Hclaim.
  destruct (run_ops 0 [OpAppend (Outside hello) 3] {| data_ := 1 |}
              {[1 := exclusive_block]}) as [[A' h'] |] eqn:Hrun;
    [| vm_compute in Hrun; discriminate].
  destruct (Hclaim A' h' Hrun) as (b & C & h'' & c & Hb & Hun & _).
  vm_compute in Hrun. injection Hrun as <- <-.
  vm_compute in Hb. injection Hb as <-. discriminate Hun.
Qed.

(** ** Destruction *)

Lemma RCString_dtor_sole_owner (h : Heap) s b :
  h !! data_ s = Some b → ref_count_ b = 1 →
  RCString_dtor s h = Some (delete (data_ s) h).
Proof.
  intros Hs Hone. unfold RCString_dtor. rewrite Hs. simpl.
  rewrite Release_shared by (rewrite Hone, kUnsharedRefMark_value; lia).
  simpl. by rewrite Hone.
Qed.

Lemma RCString_dtor_exclusive (h : Heap) s b :
  h !! data_ s = Some b → ref_count_ b = kUnsharedRefMark →
  RCString_dtor s h = Some (delete (data_ s) h).
Proof.
  intros Hs Hcnt. unfold RCString_dtor. rewrite Hs. simpl.
  rewrite Release_exclusive by done. simpl.
  by rewrite Hcnt, Z.eqb_refl, orb_true_r.
Qed.

Lemma RCString_dtor_sharer (h : Heap) s b :
  h !! data_ s = Some b → 2 ≤ ref_count_ b < kUnsharedRefMark →
  RCString_dtor s h
  = Some (<[data_ s := set_ref_count b (ref_count_ b - 1)]> h).
Proof.
  intros Hs Hcnt. unfold RCString_dtor. rewrite Hs. simpl.
  rewrite Release_shared by lia. simpl.
  by rewrite (proj2 (Z.eqb_neq _ _)) by lia.
Qed.

(** * Further properties of the code *)

(** ** [RoundToMultiple] for any factor *)

(** X1.  For a positive factor and a number of at least 1, as long as
    [num - 1 + factor] fits [size_t], [RoundToMultiple] returns the least
    multiple of the factor that is not below the number: the result is a
    multiple, lies in [[num, num + factor)], and is the number itself when
    that is a multiple already.  A factor of 0 gives 0. *)
Theorem RoundToMultiple_least_multiple num factor :
  0 < factor → 1 ≤ num → num - 1 + factor < size_modulus →
  RoundToMultiple num factor mod factor = 0
  ∧ num ≤ RoundToMultiple num factor < num + factor
  ∧ (num mod factor = 0 → RoundToMultiple num factor = num)
  ∧ RoundToMultiple num 0 = 0.
Proof.
  intros Hfactor Hnum Hfit.
  pose proof (Z.mod_pos_bound (num - 1) factor Hfactor) as Hrest.
  pose proof (Z.div_mod (num - 1) factor ltac:(lia)) as Hdiv.
  pose proof (Z.mod_le (num - 1) factor ltac:(lia) Hfactor) as Hle.
  assert (RoundToMultiple num factor
          = ((num - 1) / factor + 1) * factor) as Hvalue.
  { unfold RoundToMultiple. rewrite (proj2 (Z.eqb_neq _ _)) by lia.
    cbv zeta. rewrite (wrap_size_small (num - 1)) by lia.
    rewrite (wrap_size_small (num - 1 - _)) by lia.
    rewrite wrap_size_small by lia. lia. }
  split; [rewrite Hvalue; apply Z.mod_mul; lia |].
  split; [rewrite Hvalue; lia |]. split; [| reflexivity].
  intros Hmult. rewrite Hvalue.
  assert ((num - 1) mod factor = factor - 1) as Hlast.
  { pose proof (Z.div_mod num factor ltac:(lia)) as Hnumdiv.
    rewrite Hmult, Z.add_0_r in Hnumdiv.
    assert (0 < num / factor) by nia.
    replace (num - 1) with (factor - 1 + (num / factor - 1) * factor) by lia.
    rewrite Z.mod_add by lia. apply Z.mod_small. lia. }
  lia.
Qed.

Lemma RoundToMultiple_least_multiple_witness :
  RoundToMultiple 10 3 mod 3 = 0
  ∧ 10 ≤ RoundToMultiple 10 3 < 10 + 3
  ∧ (10 mod 3 = 0 → RoundToMultiple 10 3 = 10)
  ∧ RoundToMultiple 10 0 = 0.
Proof.
  apply (RoundToMultiple_least_multiple 10 3).
  - lia.
  - lia.
  - vm_compute. reflexivity.
Defined.

(** ** The counter as a state machine *)

(** X2.  Under either policy [AddRef] followed by [Release] is a round trip
    on a block held by [n] handles, [1 <= n < kUnsharedRefMark - 1]: the
    block is as it was and the [Release] answers false. *)
Theorem AddRef_Release_round_trip b :
  1 ≤ ref_count_ b < kUnsharedRefMark - 1 →
  AddRef b ≫= Release = Some (false, b)
  ∧ ThreadSafeStringData.AddRef b ≫= ThreadSafeStringData.Release
    = Some (false, b).
Proof.
  intros Hcnt.
  assert (ThreadSafeStringData.AddRef b = AddRef b) as -> by reflexivity.
  rewrite AddRef_shared by lia. cbn [mbind option_bind].
  rewrite Release_shared, ThreadSafe_Release_shared by (simpl; lia).
  cbn [ref_count_ set_ref_count].
  replace (ref_count_ b + 1 - 1) with (ref_count_ b) by lia.
  rewrite (proj2 (Z.eqb_neq _ _)) by lia.
  by destruct b.
Qed.

Lemma AddRef_Release_round_trip_witness :
  AddRef hello_block ≫= Release = Some (false, hello_block)
  ∧ ThreadSafeStringData.AddRef hello_block ≫= ThreadSafeStringData.Release
    = Some (false, hello_block).
Proof.
  apply (AddRef_Release_round_trip hello_block).
  vm_compute. split; [discriminate | reflexivity].
Defined.

(** X3.  On a block that is [Unique()], whether its count is 1 or the mark,
    [MakeUnsharedable] followed by [ResetSharedable] leaves a count of 1 and
    the reverse order leaves the mark; nothing else of the block changes.
    An [AddRef] on the unsharedable block wraps the counter around to 0,
    after which [Release] and [AddRef] stop at their assertion. *)
Theorem MakeUnsharedable_ResetSharedable b :
  Unique b = true →
  MakeUnsharedable b ≫= ResetSharedable = Some (set_ref_count b 1)
  ∧ ResetSharedable b ≫= MakeUnsharedable
    = Some (set_ref_count b kUnsharedRefMark)
  ∧ MakeUnsharedable b ≫= AddRef = Some (set_ref_count b 0)
  ∧ Release (set_ref_count b 0) = None
  ∧ AddRef (set_ref_count b 0) = None.
Proof.
  intros Huniq. unfold MakeUnsharedable, ResetSharedable.
  rewrite Huniq. by cbn.
Qed.

Lemma MakeUnsharedable_ResetSharedable_witness :
  MakeUnsharedable exclusive_block ≫= ResetSharedable
  = Some (set_ref_count exclusive_block 1)
  ∧ ResetSharedable exclusive_block ≫= MakeUnsharedable
    = Some (set_ref_count exclusive_block kUnsharedRefMark)
  ∧ MakeUnsharedable exclusive_block ≫= AddRef
    = Some (set_ref_count exclusive_block 0)
  ∧ Release (set_ref_count exclusive_block 0) = None
  ∧ AddRef (set_ref_count exclusive_block 0) = None.
Proof.
  apply (MakeUnsharedable_ResetSharedable exclusive_block). reflexivity.
Defined.

(** X4.  When the [n + 1] holders of a block with the plain counter release
    it one after the other, the first [n] calls of [Release] answer false and
    the last one, and only that one, answers true. *)
Theorem Release_true_exactly_once (n : nat) b :
  ref_count_ b = Z.of_nat (S n) → Z.of_nat (S n) < kUnsharedRefMark →
  ∃ answers, release_all Release (S n) b = Some answers
             ∧ answers = replicate n false ++ [true]
             ∧ List.length (filter (λ x, x = true) answers) = 1%nat.
Proof.
  intros Hcnt Hlt. exists (replicate n false ++ [true]).
  split; [by apply release_all_plain |]. split; [done |].
  rewrite filter_app, length_app. simpl.
  assert (filter (λ x : bool, x = true) (replicate n false) = []) as ->; [| done].
  clear. induction n as [| n IH]; [done |]. simpl.
  rewrite filter_cons_False by done. exact IH.
Qed.

Lemma Release_true_exactly_once_witness :
  ∃ answers, release_all Release 3 (set_ref_count hello_block 3)
             = Some answers
             ∧ answers = replicate 2 false ++ [true]
             ∧ List.length (filter (λ x, x = true) answers) = 1%nat.
Proof.
  apply (Release_true_exactly_once 2 (set_ref_count hello_block 3)).
  - reflexivity.
  - vm_compute. reflexivity.
Defined.

(** X5.  When the [n] holders of a block with the atomic counter release it
    one after the other, every call of [ThreadSafeStringData::Release]
    answers false: no holder is told to deallocate. *)
Theorem ThreadSafe_Release_never_true (n : nat) b :
  ref_count_ b = Z.of_nat n → Z.of_nat n < kUnsharedRefMark →
  release_all ThreadSafeStringData.Release n b = Some (replicate n false).
Proof. apply release_all_thread_safe. Qed.

Lemma ThreadSafe_Release_never_true_witness :
  release_all ThreadSafeStringData.Release 3 (set_ref_count hello_block 3)
  = Some (replicate 3 false).
Proof.
  apply (ThreadSafe_Release_never_true 3 (set_ref_count hello_block 3)).
  - reflexivity.
  - vm_compute. reflexivity.
Defined.

(** ** Lifetimes *)

Lemma set_ref_count_twice b n m :
  set_ref_count (set_ref_count b n) m = set_ref_count b m.
Proof. reflexivity. Qed.

Lemma ref_count_set b n : ref_count_ (set_ref_count b n) = n.
Proof. reflexivity. Qed.

Lemma copy_n_shares stale (n : nat) A (h : Heap) b :
  h !! data_ A = Some b → 1 ≤ ref_count_ b →
  ref_count_ b + Z.of_nat n < kUnsharedRefMark →
  copy_n stale n A h
  = Some (replicate n {| data_ := data_ A |},
          <[data_ A := set_ref_count b (ref_count_ b + Z.of_nat n)]> h).
Proof.
  revert h b. induction n as [| n IH]; intros h b Hs Hone Hfit.
  - simpl. rewrite Z.add_0_r, set_ref_count_same. by rewrite insert_id.
  - cbn [copy_n]. rewrite (RCString_copy_shares stale h A b Hs) by lia.
    cbn [mbind option_bind].
    rewrite (IH _ (set_ref_count b (ref_count_ b + 1)));
      [| apply lookup_insert_eq | simpl; lia | simpl; lia].
    cbn [mbind option_bind ref_count_ set_ref_count].
    rewrite insert_insert_eq, <- replicate_S_end.
    do 4 f_equal. lia.
Qed.

Lemma destroy_sharers (n : nat) A (h : Heap) b :
  h !! data_ A = Some b → Z.of_nat n < ref_count_ b < kUnsharedRefMark →
  destroy_all (replicate n A) h
  = Some (<[data_ A := set_ref_count b (ref_count_ b - Z.of_nat n)]> h).
Proof.
  revert h b. induction n as [| n IH]; intros h b Hs Hcnt.
  - simpl. rewrite Z.sub_0_r, set_ref_count_same. by rewrite insert_id.
  - cbn [replicate destroy_all].
    rewrite (RCString_dtor_sharer h A b Hs) by lia.
    cbn [mbind option_bind].
    rewrite (IH _ (set_ref_count b (ref_count_ b - 1)));
      [| apply lookup_insert_eq | simpl; lia].
    cbn [ref_count_ set_ref_count].
    rewrite insert_insert_eq. do 3 f_equal. lia.
Qed.

Lemma destroy_all_app handles1 handles2 (h : Heap) :
  destroy_all (handles1 ++ handles2) h
  = destroy_all handles1 h ≫= destroy_all handles2.
Proof.
  revert h. induction handles1 as [| s rest IH]; intros h; [done |].
  cbn [app destroy_all]. destruct (RCString_dtor s h); [apply IH | done].
Qed.

(** X6.  A handle that is the sole holder of a block is copied [n] times,
    [n + 1] below the mark.  Every copy holds the same block; destroying the
    [n] copies gives back the heap as it was before the copies, and
    destroying the original after them removes the block from the heap: the
    block is deleted at the last destructor and not before. *)
Theorem copies_share_one_lifetime stale (n : nat) A (h : Heap) b :
  h !! data_ A = Some b → ref_count_ b = 1 →
  Z.of_nat n + 1 < kUnsharedRefMark →
  ∃ copies h1,
    copy_n stale n A h = Some (copies, h1)
    ∧ List.length copies = n
    ∧ Forall (λ B, data_ B = data_ A) copies
    ∧ (∃ b1, h1 !! data_ A = Some b1 ∧ ref_count_ b1 = Z.of_nat n + 1)
    ∧ destroy_all copies h1 = Some h
    ∧ destroy_all (copies ++ [A]) h1 = Some (delete (data_ A) h).
Proof.
  intros Hs Hone Hfit.
  rewrite (copy_n_shares stale n A h b Hs) by lia.
  eexists _, _. split; [done |]. split; [apply length_replicate |].
  split. { apply Forall_forall. by intros B ->%elem_of_replicate_inv. }
  split. { eexists. split; [apply lookup_insert_eq | simpl; lia]. }
  assert (destroy_all (replicate n {| data_ := data_ A |})
            (<[data_ A := set_ref_count b (ref_count_ b + Z.of_nat n)]> h)
          = Some h) as Hback.
  { rewrite (destroy_sharers n _ _
               (set_ref_count b (ref_count_ b + Z.of_nat n)));
      [| apply lookup_insert_eq | simpl; lia].
    rewrite set_ref_count_twice, ref_count_set, insert_insert_eq.
    replace (ref_count_ b + Z.of_nat n - Z.of_nat n)
      with (ref_count_ b) by lia.
    rewrite set_ref_count_same. by rewrite insert_id. }
  split; [exact Hback |].
  rewrite destroy_all_app, Hback. cbn [mbind option_bind destroy_all].
  by rewrite (RCString_dtor_sole_owner h A b Hs Hone).
Qed.

Lemma copies_share_one_lifetime_witness :
  let A := {| data_ := 1 |} in
  let h : Heap := {[1 := hello_block]} in
  ∃ copies h1,
    copy_n 0 3 A h = Some (copies, h1)
    ∧ List.length copies = 3%nat
    ∧ Forall (λ B, data_ B = data_ A) copies
    ∧ (∃ b1, h1 !! data_ A = Some b1 ∧ ref_count_ b1 = Z.of_nat 3 + 1)
    ∧ destroy_all copies h1 = Some h
    ∧ destroy_all (copies ++ [A]) h1 = Some (delete (data_ A) h).
Proof.
  intros A h.
  apply (copies_share_one_lifetime 0 3 A h hello_block).
  - reflexivity.
  - reflexivity.
  - vm_compute. reflexivity.
Defined.

(** X7.  On storage that reads as zero every constructor is undone by the
    destructor of the handle it made, on every heap: after [RCString()],
    after [RCString(str, length)] for a length of at most [SIZE_MAX - 3], and
    after a copy construction from a handle with a well-formed block (count
    not [kUnsharedRefMark - 1]), destroying the new handle leaves the heap
    exactly as it was before the construction. *)
Theorem constructors_undone_by_destructor (h : Heap) :
  (RCString_default 0 h ≫= λ '(s, h'), RCString_dtor s h') = Some h
  ∧ (∀ str length,
       0 ≤ length ≤ size_modulus - 4 → length ≤ Z.of_nat (List.length str) →
       (RCString_from 0 str length h ≫= λ '(s, h'), RCString_dtor s h')
       = Some h)
  ∧ (∀ A b,
       h !! data_ A = Some b → block_ok b →
       ref_count_ b ≠ kUnsharedRefMark - 1 →
       (RCString_copy 0 A h ≫= λ '(s, h'), RCString_dtor s h') = Some h).
Proof.
  split; [| split].
  - destruct (RCString_default_zeroed h)
      as (a & d & -> & Hnone & _ & Hrc & _).
    cbn [mbind option_bind].
    rewrite (RCString_dtor_sole_owner _ _ d) by (done || apply lookup_insert_eq).
    simpl. by rewrite delete_insert_eq, delete_id.
  - intros str length Hn Hsrc.
    destruct (RCString_from_zeroed str length h Hn Hsrc)
      as (a & d & -> & _ & Hnone & _ & Hrc & _).
    cbn [mbind option_bind].
    rewrite (RCString_dtor_sole_owner _ _ d) by (done || apply lookup_insert_eq).
    simpl. by rewrite delete_insert_eq, delete_id.
  - intros A b Hs Hok Hcrowd. pose proof Hok as [_ _ Hcnt].
    destruct (Z.eq_dec (ref_count_ b) kUnsharedRefMark) as [Hex | Hsh].
    + destruct (RCString_copy_clones h A b Hs Hok Hex)
        as (a & c & -> & _ & Hnone & _ & Hrc & _).
      cbn [mbind option_bind].
      rewrite (RCString_dtor_sole_owner _ _ c)
        by (done || apply lookup_insert_eq).
      simpl. by rewrite delete_insert_eq, delete_id.
    + rewrite (RCString_copy_shares 0 h A b Hs) by lia.
      cbn [mbind option_bind].
      rewrite (RCString_dtor_sharer _ _ (set_ref_count b (ref_count_ b + 1)))
        by (apply lookup_insert_eq || simpl; lia).
      rewrite set_ref_count_twice, ref_count_set, insert_insert_eq.
      replace (ref_count_ b + 1 - 1) with (ref_count_ b) by lia.
      rewrite set_ref_count_same. by rewrite insert_id.
Qed.

Lemma constructors_undone_by_destructor_witness :
  let A := {| data_ := 1 |} in
  let h : Heap := {[1 := exclusive_block]} in
  (RCString_default 0 ∅ ≫= λ '(s, h'), RCString_dtor s h') = Some ∅
  ∧ (RCString_from 0 hello 5 ∅ ≫= λ '(s, h'), RCString_dtor s h') = Some ∅
  ∧ (RCString_copy 0 A h ≫= λ '(s, h'), RCString_dtor s h') = Some h.
Proof.
  intros A h. split; [| split].
  - apply (constructors_undone_by_destructor ∅).
  - apply (proj1 (proj2 (constructors_undone_by_destructor ∅)) hello 5).
    + vm_compute. split; discriminate.
    + simpl. lia.
  - apply (proj2 (proj2 (constructors_undone_by_destructor h))
             A exclusive_block).
    + reflexivity.
    + split; [split; simpl; [reflexivity | lia | reflexivity | discriminate]
             | reflexivity | vm_compute; split; discriminate].
    + discriminate.
Defined.

(** ** More on [Append] *)

(** X8.  On storage that reads as zero, a run of [Append] calls on a handle
    with a well-formed block, shared or not, each from an array outside the
    heap and with a total that stays below [SIZE_MAX - 3], returns, and the
    handle then stands for what it stood for before followed by the appended
    sequences in order; its size has grown by their total length. *)
Theorem Append_each_concatenates strs s (h : Heap) b :
  h !! data_ s = Some b → block_ok b →
  size_ b + total_length strs ≤ size_modulus - 4 →
  ∃ s' h' b', Append_each 0 strs s h = Some (s', h')
              ∧ h' !! data_ s' = Some b'
              ∧ block_ok b'
              ∧ contents b' = contents b ++ concat strs
              ∧ size_ b' = size_ b + total_length strs.
Proof.
  revert s h b. induction strs as [| str strs IH]; intros s h b Hs Hok Hfit.
  - exists s, h, b. simpl. rewrite app_nil_r, Z.add_0_r. done.
  - cbn [total_length foldr] in Hfit. fold (total_length strs) in Hfit.
    assert (0 ≤ total_length strs) as Hpos.
    { clear. induction strs as [| x xs IHxs]; simpl; lia. }
    destruct (Append_zeroed s str (Z.of_nat (List.length str)) h b)
      as (s1 & h1 & b1 & Happ & Hs1 & Hok1 & _ & Hsz1 & Htake1);
      [done | done | lia | lia |].
    destruct (IH s1 h1 b1 Hs1 Hok1) as (s' & h' & b' & Hrun & Hs' & Hok' & Hcont & Hsz);
      [lia |].
    exists s', h', b'. cbn [Append_each]. rewrite Happ.
    cbn [mbind option_bind]. split; [done |]. do 2 (split; [done |]).
    split.
    + rewrite Hcont. unfold contents. rewrite Hsz1, Htake1.
      rewrite Nat2Z.id, firstn_all. cbn [concat]. by rewrite app_assoc.
    + cbn [total_length foldr]. fold (total_length strs). lia.
Qed.

Lemma Append_each_concatenates_witness :
  ∃ s' h' b', Append_each 0 [hello; []; hello] {| data_ := 1 |}
                {[1 := set_ref_count hello_block 2]} = Some (s', h')
              ∧ h' !! data_ s' = Some b'
              ∧ block_ok b'
              ∧ contents b'
                = contents (set_ref_count hello_block 2)
                  ++ concat [hello; []; hello]
              ∧ size_ b'
                = size_ (set_ref_count hello_block 2)
                  + total_length [hello; []; hello].
Proof.
  apply (Append_each_concatenates [hello; []; hello] {| data_ := 1 |}
           {[1 := set_ref_count hello_block 2]}
           (set_ref_count hello_block 2)).
  - reflexivity.
  - split; [split; simpl; [reflexivity | lia | reflexivity | discriminate]
           | reflexivity | vm_compute; split; discriminate].
  - vm_compute. discriminate.
Defined.

(** X9.  On a handle whose block is well formed (its array holds
    [capacity_] characters, the size is within the capacity, the capacity is
    a multiple of 4) and [Unique()], an [Append] from an array outside the
    heap that fits the capacity writes in place: the handle, the array
    address and the capacity stay, no other block of the heap changes, the
    new characters follow the old ones, and the count is 1 afterwards even
    if the block was unsharedable.  No block is constructed on the way, so
    the value an uninitialised [capacity_] would read as plays no part. *)
Theorem Append_within_capacity stale s str length (h : Heap) b :
  h !! data_ s = Some b → block_ok b → Unique b = true →
  0 ≤ length ≤ Z.of_nat (List.length str) →
  size_ b + length ≤ capacity_ b →
  ∃ b', Append stale s (Outside str) length h = Some (s, <[data_ s := b']> h)
        ∧ data b' = data b
        ∧ capacity_ b' = capacity_ b
        ∧ size_ b' = size_ b + length
        ∧ contents b' = contents b ++ take (Z.to_nat length) str
        ∧ ref_count_ b' = 1.
Proof.
  intros Hs Hok Huniq Hn Hfit. rewrite Append_outside, Hs. simpl.
  pose proof Hok as [[Hlen Hsize Hcap Haddr] _ _].
  pose proof (aligned_capacity_max b Hok) as Hmax.
  unfold size. rewrite wrap_size_small by lia.
  destruct (PrepareToModify_in_place stale s (size_ b + length) false h b)
    as (b1 & Hres & ->); [done | done | done | lia |].
  rewrite Reserve_enough in Hres by done. injection Hres as <-.
  pose proof (set_ref_count_ok b 1 Hok (mark_for_range false)) as Hok1.
  destruct (CopyData_at_end (set_ref_count b 1) str length)
    as (b2 & Hcopy & _ & Hsz & Hbytes & Hc & Hd & Hrc);
    [done | done | lia | simpl; lia | lia |].
  cbn [mbind option_bind mark_for].
  rewrite (invoke_at _ _ _ (set_ref_count b 1) b2);
    [| apply lookup_insert_eq | done].
  cbn [mbind option_bind]. rewrite insert_insert_eq. exists b2.
  repeat split; try done. unfold contents. by rewrite Hsz, Hbytes.
Qed.

Lemma Append_within_capacity_witness :
  ∃ b', Append 7 {| data_ := 1 |} (Outside hello) 3 {[1 := exclusive_block]}
        = Some ({| data_ := 1 |}, <[1 := b']> {[1 := exclusive_block]})
        ∧ data b' = data exclusive_block
        ∧ capacity_ b' = capacity_ exclusive_block
        ∧ size_ b' = size_ exclusive_block + 3
        ∧ contents b' = contents exclusive_block ++ take (Z.to_nat 3) hello
        ∧ ref_count_ b' = 1.
Proof.
  apply (Append_within_capacity 7 {| data_ := 1 |} hello 3
           {[1 := exclusive_block]} exclusive_block).
  - reflexivity.
  - split; [split; simpl; [reflexivity | lia | reflexivity | discriminate]
           | reflexivity | vm_compute; split; discriminate].
  - reflexivity.
  - simpl. lia.
  - simpl. lia.
Defined.

(** X10.  An [Append] from an array outside the heap that exceeds the
    capacity of a handle whose block is well formed and [Unique()] keeps the
    handle on its block and moves the characters to a new array: its address
    is not null and is the address of no array that was live before the
    call, the capacity is the one the growth policy gives for the new size,
    and the new characters follow the old ones. *)
Theorem Append_beyond_capacity stale s str length (h : Heap) b :
  h !! data_ s = Some b → block_ok b → Unique b = true →
  0 ≤ length ≤ Z.of_nat (List.length str) →
  capacity_ b < size_ b + length → size_ b + length ≤ size_modulus - 4 →
  ∃ b', Append stale s (Outside str) length h = Some (s, <[data_ s := b']> h)
        ∧ data b' ≠ 0
        ∧ (∀ i x, h !! i = Some x → data x ≠ data b')
        ∧ capacity_ b' = grown_capacity (capacity_ b) (size_ b + length)
        ∧ size_ b' = size_ b + length
        ∧ contents b' = contents b ++ take (Z.to_nat length) str
        ∧ ref_count_ b' = 1.
Proof.
  intros Hs Hok Huniq Hn Hgrow Hfit. rewrite Append_outside, Hs. simpl.
  pose proof Hok as [[Hlen Hsize Hcap Haddr] _ _].
  unfold size. rewrite wrap_size_small by size_lia.
  destruct (PrepareToModify_in_place stale s (size_ b + length) false h b)
    as (b1 & Hres & ->); [done | done | done | lia |].
  destruct (allocate_array_in_place h) as [Hp Hlive].
  destruct (Reserve_result _ b (size_ b + length) Hok Hp)
    as (b1' & Hres' & Hok1 & Hsz1 & Hrc1 & Htake1 & Hreq1 & _ & _ & Hnew);
    [lia |].
  rewrite Hres in Hres'. injection Hres' as <-.
  assert (capacity_ b1 = grown_capacity (capacity_ b) (size_ b + length))
    as Hcap1.
  { rewrite Reserve_grows in Hres by (done || lia). by injection Hres as <-. }
  pose proof (set_ref_count_ok b1 1 Hok1 (mark_for_range false)) as Hok2.
  destruct (CopyData_at_end (set_ref_count b1 1) str length)
    as (b2 & Hcopy & _ & Hsz & Hbytes & Hc & Hd & Hrc);
    [done | done | lia | simpl; lia | lia |].
  cbn [mbind option_bind mark_for].
  rewrite (invoke_at _ _ _ (set_ref_count b1 1) b2);
    [| apply lookup_insert_eq | done].
  cbn [mbind option_bind]. rewrite insert_insert_eq. exists b2.
  assert (data b2 = allocate (used h)) as Hdata.
  { rewrite Hd. apply Hnew. lia. }
  split; [done |]. split; [by rewrite Hdata |].
  split; [by rewrite Hdata |]. split; [by rewrite Hc |].
  split; [simpl in Hsz; lia |]. split; [| done].
  unfold contents. simpl in Hsz, Hbytes.
  by rewrite Hsz, Hbytes, Hsz1, Htake1.
Qed.

Lemma Append_beyond_capacity_witness :
  ∃ b', Append 7 {| data_ := 1 |} (Outside hello) 5 {[1 := hello_block]}
        = Some ({| data_ := 1 |}, <[1 := b']> {[1 := hello_block]})
        ∧ data b' ≠ 0
        ∧ (∀ i x, ({[1 := hello_block]} : Heap) !! i = Some x →
                  data x ≠ data b')
        ∧ capacity_ b'
          = grown_capacity (capacity_ hello_block) (size_ hello_block + 5)
        ∧ size_ b' = size_ hello_block + 5
        ∧ contents b' = contents hello_block ++ take (Z.to_nat 5) hello
        ∧ ref_count_ b' = 1.
Proof.
  apply (Append_beyond_capacity 7 {| data_ := 1 |} hello 5
           {[1 := hello_block]} hello_block).
  - reflexivity.
  - split; [split; simpl; [reflexivity | lia | reflexivity | discriminate]
           | reflexivity | vm_compute; split; discriminate].
  - reflexivity.
  - simpl. lia.
  - simpl. lia.
  - vm_compute. discriminate.
Defined.

(** X11.  [Append] ends exclusivity.  Whatever [capacity_] reads as in new
    blocks, after an [Append] (from an array outside the heap) on a handle
    whose block is unsharedable the count is 1, and the next copy
    construction adopts the block: the copy holds the same block, whose count
    goes to 2. *)
Theorem Append_then_copy_shares stale s str length (h : Heap) b :
  h !! data_ s = Some b → block_ok b →
  ref_count_ b = kUnsharedRefMark →
  0 ≤ length ≤ Z.of_nat (List.length str) →
  size_ b + length ≤ size_modulus - 4 →
  ∃ h1 b1, Append stale s (Outside str) length h = Some (s, h1)
           ∧ h1 !! data_ s = Some b1
           ∧ Unsharedable b1 = false
           ∧ RCString_copy stale s h1
             = Some ({| data_ := data_ s |},
                     <[data_ s := set_ref_count b1 2]> h1).
Proof.
  intros Hs Hok Hcnt Hn Hfit.
  destruct (Append_in_place stale s str length h b)
    as (b1 & Happ & _ & Hrc & _);
    [done | done | by unfold Unique; rewrite Hcnt, Z.eqb_refl, orb_true_r
    | done | done |].
  exists (<[data_ s := b1]> h), b1. split; [done |].
  split; [apply lookup_insert_eq |].
  split; [by unfold Unsharedable; rewrite Hrc |].
  rewrite (RCString_copy_shares stale _ s b1);
    [by rewrite Hrc | apply lookup_insert_eq
    | rewrite Hrc, kUnsharedRefMark_value; lia].
Qed.

Lemma Append_then_copy_shares_witness :
  ∃ h1 b1, Append 0 {| data_ := 1 |} (Outside hello) 5 {[1 := exclusive_block]}
           = Some ({| data_ := 1 |}, h1)
           ∧ h1 !! 1 = Some b1
           ∧ Unsharedable b1 = false
           ∧ RCString_copy 0 {| data_ := 1 |} h1
             = Some ({| data_ := 1 |}, <[1 := set_ref_count b1 2]> h1).
Proof.
  apply (Append_then_copy_shares 0 {| data_ := 1 |} hello 5
           {[1 := exclusive_block]} exclusive_block).
  - reflexivity.
  - split; [split; simpl; [reflexivity | lia | reflexivity | discriminate]
           | reflexivity | vm_compute; split; discriminate].
  - reflexivity.
  - simpl. lia.
  - vm_compute. discriminate.
Defined.

(** ** A source inside the array of the handle *)

Lemma Append_read stale s str length (h : Heap) b s1 h1 b1 :
  h !! data_ s = Some b →
  PrepareToModify stale s (wrap_size (size b + length)) false h
  = Some (s1, h1) →
  h1 !! data_ s1 = Some b1 →
  Append stale s str length h
  = (chars ← read_source h1 (data_ s1) (size b1) str length;
     h2 ← invoke (data_ s1) (λ x, CopyData x chars length (size x)) h1;
     Some (s1, h2)).
Proof.
  intros Hs Hptm Hs1. unfold Append. rewrite Hs. cbn [mbind option_bind].
  rewrite Hptm. cbn [mbind option_bind]. by rewrite Hs1.
Qed.

Lemma chars_at_inside (h : Heap) owner b offset :
  h !! owner = Some b → data b ≠ 0 → 0 ≤ offset →
  chars_at h (Inside owner (data b) offset)
  = Some (drop (Z.to_nat offset) (bytes (buffer_ b))).
Proof.
  intros Hb Hnull Hoff. unfold chars_at. rewrite Hb. cbn [mbind option_bind].
  rewrite assert_true; [done |].
  rewrite !andb_true_iff. split; [split |]; test_holds; done || lia.
Qed.

Lemma chars_at_dangling (h : Heap) owner b array offset :
  h !! owner = Some b → data b ≠ array →
  chars_at h (Inside owner array offset) = None.
Proof.
  intros Hb Hne. unfold chars_at. rewrite Hb. cbn [mbind option_bind].
  rewrite assert_false; [done |].
  rewrite (proj2 (Z.eqb_neq _ _) Hne). by rewrite andb_false_r.
Qed.

Lemma take_drop_take {A : Type} (l : list A) (n k m : nat) :
  (k + n ≤ m)%nat → take n (drop k (take m l)) = take n (drop k l).
Proof.
  intros Hle. rewrite !take_drop_commute, take_take. do 2 f_equal. lia.
Qed.

(** X24.  [Append(data() + offset, length)] on a handle whose block is well
    formed and [Unique()]: a source that lies within the characters the
    handle stands for, appended where the capacity suffices, is copied in
    place; the handle then stands for what it stood for followed by the
    [length] characters it had from [offset] on. *)
Theorem Append_own_characters_in_place stale s offset length (h : Heap) b :
  h !! data_ s = Some b → block_ok b → Unique b = true →
  0 ≤ offset → 0 ≤ length → offset + length ≤ size_ b →
  size_ b + length ≤ capacity_ b →
  ∃ b', Append stale s (Inside (data_ s) (data b) offset) length h
        = Some (s, <[data_ s := b']> h)
        ∧ data b' = data b
        ∧ capacity_ b' = capacity_ b
        ∧ size_ b' = size_ b + length
        ∧ contents b'
          = contents b
            ++ take (Z.to_nat length) (drop (Z.to_nat offset) (contents b))
        ∧ ref_count_ b' = 1.
Proof.
  intros Hs Hok Huniq Hoff Hn Hsrc Hfit.
  pose proof Hok as [[Hlen Hsize Hcap Haddr] _ _].
  pose proof (aligned_capacity_max b Hok) as Hmax.
  destruct (PrepareToModify_in_place stale s (size_ b + length) false h b)
    as (b1 & Hres & Hptm); [done | done | done | lia |].
  rewrite Reserve_enough in Hres by done. injection Hres as <-.
  cbn [mark_for] in Hptm.
  rewrite (Append_read stale s _ length h b s
             (<[data_ s := set_ref_count b 1]> h) (set_ref_count b 1));
    [| done | unfold size; by rewrite wrap_size_small by lia
     | apply lookup_insert_eq].
  set (chars := if length =? 0 then []
                else drop (Z.to_nat offset) (bytes (buffer_ b))).
  assert (read_source (<[data_ s := set_ref_count b 1]> h) (data_ s)
            (size (set_ref_count b 1)) (Inside (data_ s) (data b) offset)
            length = Some chars) as ->.
  { unfold read_source, chars.
    destruct (Z.eqb_spec length 0) as [-> | Hpos]; [done |].
    rewrite (chars_at_inside _ _ (set_ref_count b 1));
      [| apply lookup_insert_eq | apply Haddr; lia | done].
    cbn [mbind option_bind]. rewrite assert_true; [done |].
    rewrite !orb_true_iff. left. right. unfold size. simpl.
    test_holds. lia. }
  cbn [mbind option_bind].
  pose proof (set_ref_count_ok b 1 Hok (mark_for_range false)) as Hok1.
  destruct (CopyData_at_end (set_ref_count b 1) chars length)
    as (b2 & Hcopy & _ & Hsz & Hbytes & Hc & Hd & Hrc);
    [done | done | lia | simpl; lia | |].
  { unfold chars. destruct (Z.eqb_spec length 0) as [-> | Hpos]; [done |].
    rewrite length_drop. lia. }
  rewrite (invoke_at _ _ _ (set_ref_count b 1) b2);
    [| apply lookup_insert_eq | done].
  cbn [mbind option_bind]. rewrite insert_insert_eq. exists b2.
  do 4 (split; [done |]). split; [| done].
  unfold contents. rewrite Hsz, Hbytes. simpl. f_equal.
  unfold chars. destruct (Z.eqb_spec length 0) as [-> | Hpos]; [done |].
  symmetry. apply take_drop_take. lia.
Qed.

Lemma Append_own_characters_in_place_witness :
  ∃ b', Append 7 {| data_ := 1 |} (Inside 1 (data hello_block) 2) 3
          {[1 := hello_block]}
        = Some ({| data_ := 1 |}, <[1 := b']> {[1 := hello_block]})
        ∧ data b' = data hello_block
        ∧ capacity_ b' = capacity_ hello_block
        ∧ size_ b' = size_ hello_block + 3
        ∧ contents b'
          = contents hello_block
            ++ take (Z.to_nat 3) (drop (Z.to_nat 2) (contents hello_block))
        ∧ ref_count_ b' = 1.
Proof.
  apply (Append_own_characters_in_place 7 {| data_ := 1 |} 2 3
           {[1 := hello_block]} hello_block).
  - reflexivity.
  - split; [split; simpl; [reflexivity | lia | reflexivity | discriminate]
           | reflexivity | vm_compute; split; discriminate].
  - reflexivity.
  - lia.
  - lia.
  - simpl. lia.
  - simpl. lia.
Defined.

(** X25.  [Append(data() + offset, length)] on a handle whose block is well
    formed and [Unique()], for a length that exceeds the capacity left:
    [Reserve] moves the characters to a new array and gives up the old one
    before [CopyData] reads the source, which points into the old array.
    The read has no defined result, and no handle state is produced. *)
Theorem Append_own_characters_after_growth stale s offset length (h : Heap) b :
  h !! data_ s = Some b → block_ok b → Unique b = true →
  0 < length → capacity_ b < size_ b + length →
  size_ b + length ≤ size_modulus - 4 →
  Append stale s (Inside (data_ s) (data b) offset) length h = None.
Proof.
  intros Hs Hok Huniq Hn Hgrow Hfit.
  pose proof Hok as [[Hlen Hsize Hcap Haddr] _ _].
  destruct (PrepareToModify_in_place stale s (size_ b + length) false h b)
    as (b1 & Hres & Hptm); [done | done | done | lia |].
  destruct (allocate_array_in_place h) as [Hp Hlive].
  destruct (Reserve_result _ b (size_ b + length) Hok Hp)
    as (b1' & Hres' & _ & _ & _ & _ & _ & _ & _ & Hnew); [lia |].
  rewrite Hres in Hres'. injection Hres' as <-.
  cbn [mark_for] in Hptm.
  rewrite (Append_read stale s _ length h b s
             (<[data_ s := set_ref_count b1 1]> h) (set_ref_count b1 1));
    [| done | unfold size; by rewrite wrap_size_small by size_lia
     | apply lookup_insert_eq].
  unfold read_source. rewrite (proj2 (Z.eqb_neq length 0)) by lia.
  rewrite (chars_at_dangling _ _ (set_ref_count b1 1));
    [done | apply lookup_insert_eq |].
  change (data b1 ≠ data b). rewrite (Hnew Hgrow).
  intros Heq. by apply (Hlive _ _ Hs).
Qed.

Lemma Append_own_characters_after_growth_witness :
  Append 0 {| data_ := 1 |} (Inside 1 (data hello_block) 0) 5
    {[1 := hello_block]} = None.
Proof.
  apply (Append_own_characters_after_growth 0 {| data_ := 1 |} 0 5
           {[1 := hello_block]} hello_block).
  - reflexivity.
  - split; [split; simpl; [reflexivity | lia | reflexivity | discriminate]
           | reflexivity | vm_compute; split; discriminate].
  - reflexivity.
  - lia.
  - simpl. lia.
  - vm_compute. discriminate.
Defined.

(** X26.  On storage that reads as zero, [Append(data() + offset, length)]
    on a handle whose well-formed block is shared: the other holders keep
    the old array alive, so a source that lies within the characters the
    handle stands for is read after the detach as it was; the handle moves
    to a new block that stands for the old characters followed by the
    [length] characters from [offset] on, and the block it left keeps its
    array with one holder less. *)
Theorem Append_own_characters_shared s offset length (h : Heap) b :
  h !! data_ s = Some b → block_ok b → Unique b = false →
  0 ≤ offset → 0 ≤ length → offset + length ≤ size_ b →
  size_ b + length ≤ size_modulus - 4 →
  ∃ a b', Append 0 s (Inside (data_ s) (data b) offset) length h
          = Some ({| data_ := a |},
                  <[a := b']>
                    (<[data_ s := set_ref_count b (ref_count_ b - 1)]> h))
          ∧ h !! a = None
          ∧ size_ b' = size_ b + length
          ∧ contents b'
            = contents b
              ++ take (Z.to_nat length) (drop (Z.to_nat offset) (contents b))
          ∧ ref_count_ b' = 1.
Proof.
  intros Hs Hok Huniq Hoff Hn Hsrc Hfit.
  pose proof Hok as [[Hlen Hsize Hcap Haddr] _ _].
  destruct (PrepareToModify_detach h s (size_ b + length) false b)
    as (a & c & Hptm & Ha & Hnone & Hc & Hrc & Hsz & Htake & Hmax & _);
    [done | done | done | lia |].
  cbn [mark_for] in Hptm.
  assert (a ≠ data_ s) as Hne by congruence.
  rewrite (Append_read 0 s _ length h b {| data_ := a |}
             (<[a := set_ref_count c 1]>
                (<[data_ s := set_ref_count b (ref_count_ b - 1)]> h))
             (set_ref_count c 1));
    [| done | unfold size; by rewrite wrap_size_small by size_lia
     | apply lookup_insert_eq].
  set (chars := if length =? 0 then []
                else drop (Z.to_nat offset) (bytes (buffer_ b))).
  match goal with
  | |- context [read_source ?h1 ?d ?p ?src length] =>
      assert (read_source h1 d p src length = Some chars) as ->
  end.
  { unfold read_source, chars.
    destruct (Z.eqb_spec length 0) as [-> | Hpos]; [done |].
    rewrite (chars_at_inside _ _ (set_ref_count b (ref_count_ b - 1)));
      [| rewrite lookup_insert_ne by done; apply lookup_insert_eq
       | apply Haddr; lia | done].
    cbn [mbind option_bind]. rewrite assert_true; [done |].
    rewrite !orb_true_iff. left. left. simpl. test_holds. congruence. }
  cbn [mbind option_bind].
  pose proof (set_ref_count_ok c 1 Hc (mark_for_range false)) as Hok2.
  destruct (CopyData_at_end (set_ref_count c 1) chars length)
    as (b2 & Hcopy & _ & Hsz2 & Hbytes & _ & _ & Hrc2);
    [done | done | lia | simpl; lia | |].
  { unfold chars. destruct (Z.eqb_spec length 0) as [-> | Hpos]; [done |].
    rewrite length_drop. lia. }
  rewrite (invoke_at _ _ _ (set_ref_count c 1) b2);
    [| apply lookup_insert_eq | done].
  cbn [mbind option_bind data_]. rewrite insert_insert_eq. exists a, b2.
  split; [done |]. split; [done |]. simpl in Hsz2, Hbytes.
  split; [lia |]. split; [| done].
  unfold contents. rewrite Hsz2, Hbytes, Hsz, Htake. f_equal.
  unfold chars. destruct (Z.eqb_spec length 0) as [-> | Hpos]; [done |].
  symmetry. apply take_drop_take. lia.
Qed.

Lemma Append_own_characters_shared_witness :
  let b := set_ref_count hello_block 2 in
  ∃ a b', Append 0 {| data_ := 1 |} (Inside 1 (data b) 0) 5 {[1 := b]}
          = Some ({| data_ := a |},
                  <[a := b']>
                    (<[1 := set_ref_count b (ref_count_ b - 1)]> {[1 := b]}))
          ∧ ({[1 := b]} : Heap) !! a = None
          ∧ size_ b' = size_ b + 5
          ∧ contents b'
            = contents b
              ++ take (Z.to_nat 5) (drop (Z.to_nat 0) (contents b))
          ∧ ref_count_ b' = 1.
Proof.
  intros b.
  apply (Append_own_characters_shared {| data_ := 1 |} 0 5 {[1 := b]} b).
  - reflexivity.
  - split; [split; simpl; [reflexivity | lia | reflexivity | discriminate]
           | reflexivity | vm_compute; split; discriminate].
  - reflexivity.
  - lia.
  - lia.
  - simpl. lia.
  - vm_compute. discriminate.
Defined.

(** ** Indexed access *)

(** X12.  On storage that reads as zero, a mutable indexed access through a
    handle that shares its block detaches first: the handle moves to a new
    block that is unsharedable and stands for the same characters in an
    array of its own, the reference returned points into that array, and the
    block left behind keeps its characters with one holder fewer. *)
Theorem RCString_at_mut_detaches s pos (h : Heap) b :
  h !! data_ s = Some b → block_ok b → Unique b = false →
  0 ≤ pos < capacity_ b →
  ∃ a c, RCString_at_mut 0 s pos h
         = Some (data c + pos, {| data_ := a |},
                 <[a := c]>
                   (<[data_ s := set_ref_count b (ref_count_ b - 1)]> h))
         ∧ h !! a = None
         ∧ ref_count_ c = kUnsharedRefMark
         ∧ contents c = contents b
         ∧ data c ≠ data b
         ∧ block_ok c.
Proof.
  intros Hs Hok Huniq Hpos. unfold RCString_at_mut. rewrite Hs. simpl.
  pose proof Hok as [[Hlen Hsize Hcap Haddr] _ _].
  pose proof (aligned_capacity_max b Hok) as Hmax.
  destruct (PrepareToModify_detach h s (size b) true b)
    as (a & c & -> & _ & Hnone & Hc & Hrc & Hsz & Htake & Hcapc & _ & Hlive);
    [done | done | done | unfold size; lia |].
  cbn [mbind option_bind mark_for]. rewrite lookup_insert_eq.
  cbn [mbind option_bind].
  pose proof Hc as [[Hclen _ _ _] _ _].
  cbn [buffer_ set_ref_count]. rewrite assert_true by (apply Z.ltb_lt; lia).
  exists a, (set_ref_count c kUnsharedRefMark).
  split; [done |]. do 2 (split; [done |]).
  split; [unfold contents; simpl; by rewrite Hsz |]. split.
  - destruct Hlive as [_ Hdiff]; [lia |]. intros Heq.
    by apply (Hdiff (data_ s) b).
  - apply set_ref_count_ok; [done | apply (mark_for_range true)].
Qed.

Lemma RCString_at_mut_detaches_witness :
  let b := set_ref_count hello_block 2 in
  let h : Heap := {[1 := b]} in
  ∃ a c, RCString_at_mut 0 {| data_ := 1 |} 4 h
         = Some (data c + 4, {| data_ := a |},
                 <[a := c]> (<[1 := set_ref_count b (ref_count_ b - 1)]> h))
         ∧ h !! a = None
         ∧ ref_count_ c = kUnsharedRefMark
         ∧ contents c = contents b
         ∧ data c ≠ data b
         ∧ block_ok c.
Proof.
  intros b h.
  apply (RCString_at_mut_detaches {| data_ := 1 |} 4 h b).
  - reflexivity.
  - split; [split; simpl; [reflexivity | lia | reflexivity | discriminate]
           | reflexivity | vm_compute; split; discriminate].
  - reflexivity.
  - simpl. lia.
Defined.

(** X13.  On storage that reads as zero a handle constructed from [length]
    characters reports that size, and reading it at any position below the
    size through the const indexed access returns the character of the
    source at that position. *)
Theorem RCString_from_reads_back str length (h : Heap) :
  0 ≤ length ≤ size_modulus - 4 → length ≤ Z.of_nat (List.length str) →
  ∃ s h', RCString_from 0 str length h = Some (s, h')
          ∧ RCString_size s h' = Some length
          ∧ ∀ pos, 0 ≤ pos < length →
                   RCString_at s pos h' = str !! Z.to_nat pos.
Proof.
  intros Hn Hsrc.
  destruct (RCString_from_zeroed str length h Hn Hsrc)
    as (a & b & -> & _ & _ & _ & _ & Hsz & Htake).
  eexists _, _. split; [done |].
  unfold RCString_size, RCString_at. cbn [data_].
  rewrite lookup_insert_eq. cbn [fmap option_fmap option_map mbind option_bind].
  split; [by unfold size; rewrite Hsz |].
  intros pos Hpos.
  rewrite <- (lookup_take_lt (bytes (buffer_ b)) (Z.to_nat length)) by lia.
  rewrite Htake. apply lookup_take_lt. lia.
Qed.

Lemma RCString_from_reads_back_witness :
  ∃ s h', RCString_from 0 hello 5 ∅ = Some (s, h')
          ∧ RCString_size s h' = Some 5
          ∧ ∀ pos, 0 ≤ pos < 5 →
                   RCString_at s pos h' = hello !! Z.to_nat pos.
Proof.
  apply (RCString_from_reads_back hello 5 ∅).
  - vm_compute. split; discriminate.
  - simpl. lia.
Defined.

(** ** Null-terminated sources *)

Lemma strlen_terminated text rest :
  x00 ∉ text → strlen (terminated text rest) = Some (Z.of_nat (length text)).
Proof.
  unfold terminated. induction text as [| c text IH]; intros Hnul; [done |].
  apply not_elem_of_cons in Hnul as [Hc Htext]. cbn [fmap list_fmap app strlen].
  destruct (Byte.eqb c x00) eqn:Heq.
  - apply Byte.byte_dec_bl in Heq. congruence.
  - fold (fmap (M := list) (@Some byte) text). rewrite (IH Htext).
    cbn [fmap option_fmap option_map length]. f_equal. lia.
Qed.

Lemma strlen_unterminated (text : list byte) :
  x00 ∉ text → strlen (Some <$> text) = None.
Proof.
  induction text as [| c text IH]; intros Hnul; [done |].
  apply not_elem_of_cons in Hnul as [Hc Htext]. cbn [fmap list_fmap strlen].
  destruct (Byte.eqb c x00) eqn:Heq.
  - apply Byte.byte_dec_bl in Heq. congruence.
  - fold (fmap (M := list) (@Some byte) text). by rewrite (IH Htext).
Qed.

Lemma take_terminated text rest :
  take (length text) (terminated text rest) = Some <$> text.
Proof. unfold terminated. apply take_app_length'. by rewrite length_fmap. Qed.

Lemma length_terminated text rest :
  (length text < length (terminated text rest))%nat.
Proof.
  unfold terminated. rewrite length_app, length_fmap. simpl. lia.
Qed.

(** X14.  On storage that reads as zero, [RCString(const char* str)] given a
    C string takes the characters in front of the first NUL: the handle
    holds a new block whose size is their number and which stands for
    exactly them.  When the array holds no NUL, [strlen] runs off its end
    and no handle is made, whatever [capacity_] reads as. *)
Theorem RCString_from_cstr_takes_text stale text rest (h : Heap) :
  x00 ∉ text → Z.of_nat (length text) ≤ size_modulus - 4 →
  (∃ a b, RCString_from_cstr 0 (terminated text rest) h
          = Some ({| data_ := a |}, <[a := b]> h)
          ∧ h !! a = None
          ∧ size_ b = Z.of_nat (length text)
          ∧ contents b = Some <$> text
          ∧ ref_count_ b = 1)
  ∧ RCString_from_cstr stale (Some <$> text) h = None.
Proof.
  intros Hnul Hfit. split.
  - unfold RCString_from_cstr. rewrite strlen_terminated by done.
    cbn [mbind option_bind].
    pose proof (length_terminated text rest) as Hlen.
    destruct (RCString_from_zeroed (terminated text rest)
                (Z.of_nat (length text)) h)
      as (a & b & -> & _ & Hnone & _ & Hrc & Hsz & Htake); [lia | lia |].
    exists a, b. do 3 (split; [done |]). split; [| done].
    unfold contents. rewrite Hsz, Htake, Nat2Z.id. apply take_terminated.
  - unfold RCString_from_cstr. by rewrite strlen_unterminated.
Qed.

Lemma RCString_from_cstr_takes_text_witness :
  let text := [x68; x65; x6c; x6c; x6f]%byte in
  (∃ a b, RCString_from_cstr 0 (terminated text hello) ∅
          = Some ({| data_ := a |}, <[a := b]> ∅)
          ∧ (∅ : Heap) !! a = None
          ∧ size_ b = Z.of_nat (length text)
          ∧ contents b = Some <$> text
          ∧ ref_count_ b = 1)
  ∧ RCString_from_cstr 8 (Some <$> text) ∅ = None.
Proof.
  intros text.
  apply (RCString_from_cstr_takes_text 8 text hello ∅).
  - vm_compute. intros Hin.
    repeat (apply elem_of_cons in Hin as [Hin | Hin]; [discriminate |]).
    by apply elem_of_nil in Hin.
  - vm_compute. discriminate.
Defined.

(** X15.  On storage that reads as zero, [Append(const char* str)] given a
    C string in an array outside the heap appends the characters in front of
    the first NUL to a handle with a well-formed block, shared or not:
    afterwards the handle stands for what it stood for followed by them. *)
Theorem Append_cstr_appends_text text rest s (h : Heap) b :
  h !! data_ s = Some b → block_ok b → x00 ∉ text →
  size_ b + Z.of_nat (length text) ≤ size_modulus - 4 →
  ∃ s' h' b', Append_cstr 0 s (Outside (terminated text rest)) h
              = Some (s', h')
              ∧ h' !! data_ s' = Some b'
              ∧ size_ b' = size_ b + Z.of_nat (length text)
              ∧ contents b' = contents b ++ (Some <$> text).
Proof.
  intros Hs Hok Hnul Hfit. unfold Append_cstr. cbn [chars_at mbind option_bind].
  rewrite strlen_terminated by done. cbn [mbind option_bind].
  pose proof (length_terminated text rest) as Hlen.
  destruct (Append_zeroed s (terminated text rest)
              (Z.of_nat (length text)) h b)
    as (s' & h' & b' & -> & Hs' & _ & _ & Hsz & Htake);
    [done | done | lia | done |].
  exists s', h', b'. do 3 (split; [done |]).
  unfold contents. by rewrite Hsz, Htake, Nat2Z.id, take_terminated.
Qed.

Lemma Append_cstr_appends_text_witness :
  let text := [x6c; x6f]%byte in
  ∃ s' h' b', Append_cstr 0 {| data_ := 1 |} (Outside (terminated text []))
                {[1 := hello_block]} = Some (s', h')
              ∧ h' !! data_ s' = Some b'
              ∧ size_ b' = size_ hello_block + Z.of_nat (length text)
              ∧ contents b' = contents hello_block ++ (Some <$> text).
Proof.
  intros text.
  apply (Append_cstr_appends_text text [] {| data_ := 1 |}
           {[1 := hello_block]} hello_block).
  - reflexivity.
  - split; [split; simpl; [reflexivity | lia | reflexivity | discriminate]
           | reflexivity | vm_compute; split; discriminate].
  - vm_compute. intros Hin.
    repeat (apply elem_of_cons in Hin as [Hin | Hin]; [discriminate |]).
    by apply elem_of_nil in Hin.
  - vm_compute. discriminate.
Defined.

(** ** Construction and the value found in [capacity_] *)

Lemma StringData_ctor_grows stale p capacity :
  p ≠ 0 → 0 ≤ stale < capacity → capacity ≤ size_modulus - 4 →
  ∃ b, StringData_ctor stale p capacity = Some b
       ∧ array_ok b ∧ size_ b = 0 ∧ ref_count_ b = 1
       ∧ capacity_ b = grown_capacity stale capacity
       ∧ capacity ≤ capacity_ b.
Proof.
  intros Hp Hstale Hcap. unfold StringData_ctor, Reserve.
  cbn [capacity_ size_ buffer_].
  rewrite (proj2 (Z.leb_gt _ _)) by lia.
  fold (grown_capacity stale capacity).
  destruct (grown_capacity_bounds stale capacity) as [Hg _]; [lia.. |].
  unfold memcpy_s. cbn [Z.eqb mbind option_bind new_chars bytes].
  eexists. split; [done |]. cbn.
  split; [| repeat split; lia].
  split; cbn; [| lia | size_lia | done].
  rewrite length_replicate. lia.
Qed.

(** X16.  [RCString(str, length)] for [length > 0] returns exactly when the
    value found in the uninitialised [capacity_] is below [length]: then the
    handle holds a new block of that size that stands for the first [length]
    characters of the source, with the capacity the growth policy gives from
    the value found; otherwise no array is allocated and the copy stops. *)
Theorem RCString_from_needs_room stale str length (h : Heap) :
  0 ≤ stale → 0 < length ≤ size_modulus - 4 →
  length ≤ Z.of_nat (List.length str) →
  (is_Some (RCString_from stale str length h) ↔ stale < length)
  ∧ (stale < length →
     ∃ a b, RCString_from stale str length h
            = Some ({| data_ := a |}, <[a := b]> h)
            ∧ h !! a = None
            ∧ size_ b = length
            ∧ contents b = take (Z.to_nat length) str
            ∧ capacity_ b = grown_capacity stale length).
Proof.
  intros Hstale Hn Hsrc.
  assert (stale < length →
          ∃ a b, RCString_from stale str length h
                 = Some ({| data_ := a |}, <[a := b]> h)
                 ∧ h !! a = None
                 ∧ size_ b = length
                 ∧ contents b = take (Z.to_nat length) str
                 ∧ capacity_ b = grown_capacity stale length) as Hroom.
  { intros Hlt. unfold RCString_from, new_StringData.
    destruct (allocate_object h) as [_ Hnone].
    destruct (allocate_array h (allocate (used h))) as (Hp & _ & _).
    destruct (StringData_ctor_grows stale _ length Hp)
      as (d & -> & Hd & Hsz & Hrc & Hcap & Hle); [lia | lia |].
    cbn [mbind option_bind].
    rewrite (invoke_at _ _ _ d
               (set_contents d (splice (bytes (buffer_ d)) 0 str length)
                  (Z.max (0 + length) (size_ d)))).
    - cbn [mbind option_bind]. rewrite insert_insert_eq.
      eexists _, _. split; [done |]. split; [done |].
      cbn [size_ set_contents capacity_]. split; [lia |]. split; [| done].
      unfold contents. cbn [size_ set_contents buffer_ bytes].
      rewrite Hsz, Z.max_l by lia. apply take_splice_front; lia.
    - apply lookup_insert_eq.
    - apply CopyData_writes; try done; try lia.
      unfold Unique. by rewrite Hrc. }
  split; [| exact Hroom]. split.
  - intros Hsome. destruct (Z.lt_ge_cases stale length) as [| Hge]; [done |].
    rewrite RCString_from_stale in Hsome by lia. by destruct Hsome.
  - intros Hlt. destruct (Hroom Hlt) as (a & b & -> & _). done.
Qed.

Lemma RCString_from_needs_room_witness :
  (is_Some (RCString_from 3 hello 5 ∅) ↔ 3 < 5)
  ∧ (3 < 5 →
     ∃ a b, RCString_from 3 hello 5 ∅
            = Some ({| data_ := a |}, <[a := b]> ∅)
            ∧ (∅ : Heap) !! a = None
            ∧ size_ b = 5
            ∧ contents b = take (Z.to_nat 5) hello
            ∧ capacity_ b = grown_capacity 3 5).
Proof.
  apply (RCString_from_needs_room 3 hello 5 ∅).
  - lia.
  - vm_compute. split; [reflexivity | discriminate].
  - simpl. lia.
Defined.

(** ** Output *)

(** X17.  [operator<<] appends to the stream exactly the characters the
    handle stands for, the first [size()] of its array, and nothing for an
    empty handle; two handles written one after the other give the two
    contents in that order. *)
Theorem RCString_output_contents os s1 s2 (h : Heap) b1 b2 :
  h !! data_ s1 = Some b1 → array_ok b1 →
  h !! data_ s2 = Some b2 → array_ok b2 →
  RCString_output os s1 h = Some (os ++ contents b1)
  ∧ (size_ b1 = 0 → RCString_output os s1 h = Some os)
  ∧ (RCString_output os s1 h ≫= λ os', RCString_output os' s2 h)
    = Some (os ++ contents b1 ++ contents b2).
Proof.
  assert (∀ out s b, h !! data_ s = Some b → array_ok b →
                     RCString_output out s h = Some (out ++ contents b))
    as Hone.
  { intros out s b Hs [Hlen Hsize _ _].
    unfold RCString_output, RCString_empty. rewrite Hs.
    cbn [mbind option_bind fmap option_fmap option_map]. unfold size, contents.
    destruct (Z.eqb_spec (size_ b) 0) as [-> | Hne]; cbn [negb].
    - by rewrite take_0, app_nil_r.
    - unfold ostream_write. by rewrite assert_true by (apply Z.leb_le; lia). }
  intros Hs1 Hok1 Hs2 Hok2. split; [by apply Hone |]. split.
  - intros Hzero. rewrite (Hone os s1 b1) by done.
    unfold contents. by rewrite Hzero, take_0, app_nil_r.
  - rewrite (Hone os s1 b1) by done. cbn [mbind option_bind].
    rewrite (Hone _ s2 b2) by done. by rewrite app_assoc.
Qed.

Lemma RCString_output_contents_witness :
  let h : Heap := {[1 := hello_block; 2 := blank]} in
  RCString_output hello {| data_ := 1 |} h
  = Some (hello ++ contents hello_block)
  ∧ (size_ hello_block = 0 →
     RCString_output hello {| data_ := 1 |} h = Some hello)
  ∧ (RCString_output hello {| data_ := 1 |} h
       ≫= λ os', RCString_output os' {| data_ := 2 |} h)
    = Some (hello ++ contents hello_block ++ contents blank).
Proof.
  intros h.
  apply (RCString_output_contents hello {| data_ := 1 |} {| data_ := 2 |} h
           hello_block blank).
  - reflexivity.
  - split; simpl; [reflexivity | lia | reflexivity | discriminate].
  - reflexivity.
  - split; simpl; [reflexivity | lia | reflexivity | done].
Defined.

(** ** The size of the queue *)

(** X18.  Used by one thread, the queue's [size()] is the number of items
    waiting and leaves them waiting: it grows by one with every [Enqueue] and
    shrinks by one with every [Dequeue], whatever was enqueued before; a
    [Dequeue] on an empty queue does not return, and an [Enqueue] followed by
    a [Dequeue] on an empty queue hands the item over and leaves the queue
    empty. *)
Theorem BlockingQueue_size_counts (T : Type) (waiting items : list T)
    (x : T) :
  BlockingQueue.size (BlockingQueue.mk false waiting)
  = Some (Z.of_nat (length waiting))
  ∧ (BlockingQueue.Enqueue_all items (BlockingQueue.mk false waiting)
       ≫= BlockingQueue.size)
    = Some (Z.of_nat (length waiting) + Z.of_nat (length items))
  ∧ (BlockingQueue.Dequeue (BlockingQueue.mk false (x :: waiting))
       ≫= λ '(_, q), BlockingQueue.size q)
    = Some (Z.of_nat (length (x :: waiting)) - 1)
  ∧ BlockingQueue.Dequeue (BlockingQueue.empty (T := T)) = None
  ∧ (BlockingQueue.Enqueue x BlockingQueue.empty ≫= BlockingQueue.Dequeue)
    = Some (x, BlockingQueue.empty).
Proof.
  split; [reflexivity |]. split.
  - rewrite Enqueue_all_free. cbn [mbind option_bind].
    unfold BlockingQueue.size. cbn. rewrite length_app. f_equal. lia.
  - split; [| split; reflexivity].
    rewrite Dequeue_free. cbn [mbind option_bind].
    unfold BlockingQueue.size. cbn. f_equal. lia.
Qed.

(** ** What the gate guarantees *)

(** X19.  On storage that reads as zero, [PrepareToModify] on a handle with a
    well-formed block, shared or not, returns with the handle on a block
    that is [Unique()]: its count is the mark when unsharedability was asked
    for and 1 otherwise, its capacity covers the request, and it stands for
    the characters the handle stood for. *)
Theorem PrepareToModify_makes_unique s required flag (h : Heap) b :
  h !! data_ s = Some b → block_ok b →
  0 ≤ required ≤ size_modulus - 4 →
  ∃ s' h' b', PrepareToModify 0 s required flag h = Some (s', h')
              ∧ h' !! data_ s' = Some b'
              ∧ block_ok b'
              ∧ Unique b' = true
              ∧ ref_count_ b' = mark_for flag
              ∧ required ≤ capacity_ b'
              ∧ capacity_ b ≤ capacity_ b'
              ∧ contents b' = contents b.
Proof.
  intros Hs Hok Hreq. destruct (Unique b) eqn:Huniq.
  - destruct (PrepareToModify_in_place 0 s required flag h b)
      as (b1 & Hres & ->); [done.. |].
    destruct (allocate_array_in_place h) as [Hp _].
    destruct (Reserve_result _ b required Hok Hp Hreq)
      as (b1' & Hres' & Hok1 & Hsz & _ & Htake & Hle & Hmono & _).
    rewrite Hres in Hres'. injection Hres' as <-.
    exists s, (<[data_ s := set_ref_count b1 (mark_for flag)]> h),
      (set_ref_count b1 (mark_for flag)).
    split; [done |]. split; [apply lookup_insert_eq |].
    split; [apply set_ref_count_ok; [done | apply mark_for_range] |].
    split; [by destruct flag |]. do 3 (split; [done |]).
    unfold contents. simpl. by rewrite Hsz.
  - destruct (PrepareToModify_detach h s required flag b)
      as (a & c & -> & _ & _ & Hc & _ & Hsz & Htake & Hcap & _);
      [done.. |].
    eexists _, _, (set_ref_count c (mark_for flag)).
    split; [done |]. split; [apply lookup_insert_eq |].
    split; [apply set_ref_count_ok; [done | apply mark_for_range] |].
    split; [by destruct flag |]. split; [done |].
    split; [simpl; lia |]. split; [simpl; lia |].
    unfold contents. simpl. by rewrite Hsz.
Qed.

Lemma PrepareToModify_makes_unique_witness :
  let b := set_ref_count hello_block 2 in
  ∃ s' h' b', PrepareToModify 0 {| data_ := 1 |} 20 true {[1 := b]}
              = Some (s', h')
              ∧ h' !! data_ s' = Some b'
              ∧ block_ok b'
              ∧ Unique b' = true
              ∧ ref_count_ b' = mark_for true
              ∧ 20 ≤ capacity_ b'
              ∧ capacity_ b ≤ capacity_ b'
              ∧ contents b' = contents b.
Proof.
  intros b.
  apply (PrepareToModify_makes_unique {| data_ := 1 |} 20 true {[1 := b]} b).
  - reflexivity.
  - split; [split; simpl; [reflexivity | lia | reflexivity | discriminate]
           | reflexivity | vm_compute; split; discriminate].
  - vm_compute. split; discriminate.
Defined.

(** X20.  On storage that reads as zero, [Clone] of a well-formed block makes
    a new object on the heap and touches nothing else: the clone has a count
    of 1, stands for the characters of the source, has a capacity that is a
    multiple of 4 and covers both the capacity asked for and the capacity of
    the source, and when that is not zero it has an array at an address that
    no live block uses. *)
Theorem Clone_is_independent this new_capacity (h : Heap) b :
  h !! this = Some b → block_ok b →
  0 ≤ new_capacity ≤ size_modulus - 4 →
  ∃ a c, Clone 0 this new_capacity h = Some (a, <[a := c]> h)
         ∧ h !! a = None
         ∧ ref_count_ c = 1
         ∧ contents c = contents b
         ∧ capacity_ c mod kBaseSize = 0
         ∧ new_capacity ≤ capacity_ c
         ∧ capacity_ b ≤ capacity_ c
         ∧ (0 < new_capacity ∨ 0 < capacity_ b →
            data c ≠ 0 ∧ ∀ i x, h !! i = Some x → data x ≠ data c).
Proof.
  intros Hs Hok Hnew.
  destruct (Clone_zeroed h this b new_capacity Hs Hok Hnew)
    as (a & c & Hclone & _ & Hnone & Hc & Hrc & Hsz & Htake & Hcap & _ & Hlive).
  exists a, c. do 3 (split; [done |]).
  split; [unfold contents; by rewrite Hsz |].
  split; [apply Hc |]. split; [lia |]. split; [lia |].
  intros Hpos. apply Hlive. lia.
Qed.

Lemma Clone_is_independent_witness :
  ∃ a c, Clone 0 1 20 {[1 := hello_block]}
         = Some (a, <[a := c]> {[1 := hello_block]})
         ∧ ({[1 := hello_block]} : Heap) !! a = None
         ∧ ref_count_ c = 1
         ∧ contents c = contents hello_block
         ∧ capacity_ c mod kBaseSize = 0
         ∧ 20 ≤ capacity_ c
         ∧ capacity_ hello_block ≤ capacity_ c
         ∧ (0 < 20 ∨ 0 < capacity_ hello_block →
            data c ≠ 0
            ∧ ∀ i x, ({[1 := hello_block]} : Heap) !! i = Some x →
                     data x ≠ data c).
Proof.
  apply (Clone_is_independent 1 20 {[1 := hello_block]} hello_block).
  - reflexivity.
  - split; [split; simpl; [reflexivity | lia | reflexivity | discriminate]
           | reflexivity | vm_compute; split; discriminate].
  - vm_compute. split; discriminate.
Defined.

(** X21.  [Reserve] needs to be called once: after [Reserve(first)] has
    returned on a well-formed block, a [Reserve(second)] with
    [second <= first] changes nothing, so the two calls give the block the
    first call gives, and that block still stands for the same characters. *)
Theorem Reserve_once_is_enough p q b first second :
  block_ok b → p ≠ 0 →
  0 ≤ first ≤ size_modulus - 4 → second ≤ first →
  ∃ b1, Reserve p b first = Some b1
        ∧ (Reserve p b first ≫= λ x, Reserve q x second) = Some b1
        ∧ first ≤ capacity_ b1
        ∧ contents b1 = contents b.
Proof.
  intros Hok Hp Hfirst Hsecond.
  destruct (Reserve_result p b first Hok Hp Hfirst)
    as (b1 & Hres & _ & Hsz & _ & Htake & Hle & _).
  exists b1. split; [done |]. rewrite Hres. cbn [mbind option_bind].
  split; [apply Reserve_enough; lia |]. split; [done |].
  unfold contents. by rewrite Hsz.
Qed.

Lemma Reserve_once_is_enough_witness :
  ∃ b1, Reserve 3 hello_block 20 = Some b1
        ∧ (Reserve 3 hello_block 20 ≫= λ x, Reserve 4 x 17) = Some b1
        ∧ 20 ≤ capacity_ b1
        ∧ contents b1 = contents hello_block.
Proof.
  apply (Reserve_once_is_enough 3 4 hello_block 20 17).
  - split; [split; simpl; [reflexivity | lia | reflexivity | discriminate]
           | reflexivity | vm_compute; split; discriminate].
  - discriminate.
  - vm_compute. split; discriminate.
  - lia.
Defined.

(** ** The heap invariant *)

Lemma heap_ok_insert (h : Heap) i c :
  heap_ok h → block_ok c →
  data c = 0 ∨ (∀ j x, j ≠ i → h !! j = Some x → data x ≠ data c) →
  heap_ok (<[i := c]> h).
Proof.
  intros [Hblocks Harrays] Hc Hfresh. split.
  - intros j x Hj. destruct (decide (i = j)) as [<- | Hne].
    + rewrite lookup_insert_eq in Hj. by injection Hj as <-.
    + rewrite lookup_insert_ne in Hj by done. by eapply Hblocks.
  - intros j k x y Hj Hk Hjk Hnull.
    destruct (decide (i = j)) as [<- | Hij];
      destruct (decide (i = k)) as [<- | Hik]; try done.
    + rewrite lookup_insert_eq in Hj. injection Hj as <-.
      rewrite lookup_insert_ne in Hk by done.
      destruct Hfresh as [Hzero | Hfresh]; [done |].
      intros Heq. by apply (Hfresh k y).
    + rewrite lookup_insert_eq in Hk. injection Hk as <-.
      rewrite lookup_insert_ne in Hj by done.
      destruct Hfresh as [Hzero | Hfresh]; [congruence |].
      by apply (Hfresh j x).
    + rewrite lookup_insert_ne in Hj, Hk by done. by eapply Harrays.
Qed.

Lemma heap_ok_same_array (h : Heap) i b c :
  heap_ok h → h !! i = Some b → block_ok c → data c = data b →
  heap_ok (<[i := c]> h).
Proof.
  intros Hh Hi Hc Hdata. apply heap_ok_insert; [done | done |].
  destruct (decide (data b = 0)) as [Hzero | Hnull]; [left; congruence |].
  right. intros j x Hne Hj. rewrite Hdata. intros Heq.
  destruct Hh as [_ Harrays].
  by apply (Harrays i j b x Hi Hj ltac:(congruence) Hnull).
Qed.

Lemma heap_ok_delete (h : Heap) i : heap_ok h → heap_ok (delete i h).
Proof.
  intros [Hblocks Harrays]. split.
  - intros j x [_ Hj]%lookup_delete_Some. by eapply Hblocks.
  - intros j k x y [_ Hj]%lookup_delete_Some [_ Hk]%lookup_delete_Some.
    by eapply Harrays.
Qed.

Lemma heap_ok_empty : heap_ok ∅.
Proof. split; intros *; by rewrite lookup_empty. Qed.

Lemma PrepareToModify_heap_ok s required flag (h : Heap) b :
  heap_ok h → h !! data_ s = Some b →
  0 ≤ required ≤ size_modulus - 4 →
  ∃ s' h' b', PrepareToModify 0 s required flag h = Some (s', h')
              ∧ h' !! data_ s' = Some b'
              ∧ heap_ok h'
              ∧ ref_count_ b' = mark_for flag
              ∧ size_ b' = size_ b
              ∧ required ≤ capacity_ b'.
Proof.
  intros Hh Hs Hreq. pose proof Hh as [Hblocks Harrays].
  pose proof (Hblocks _ _ Hs) as Hok.
  destruct (Unique b) eqn:Huniq.
  - destruct (PrepareToModify_in_place 0 s required flag h b)
      as (b1 & Hres & ->); [done.. |].
    destruct (allocate_array_in_place h) as [Hp Hlive].
    destruct (Reserve_result _ b required Hok Hp Hreq)
      as (b1' & Hres' & Hok1 & Hsz & _ & _ & Hle & _ & Hsame & Hnew).
    rewrite Hres in Hres'. injection Hres' as <-.
    eexists _, _, _. split; [done |]. split; [apply lookup_insert_eq |].
    split; [| done].
    pose proof (set_ref_count_ok b1 _ Hok1 (mark_for_range flag)) as Hok2.
    destruct (Z.le_gt_cases required (capacity_ b)) as [Hfit | Hgrow].
    + apply (heap_ok_same_array h _ b); [done | done | done |].
      by rewrite (Hsame Hfit).
    + apply heap_ok_insert; [done | done |]. right.
      intros j x _ Hj. change (data x ≠ data b1). rewrite (Hnew Hgrow).
      by eapply Hlive.
  - destruct (PrepareToModify_detach h s required flag b)
      as (a & c & -> & _ & Hnone & Hc & _ & Hsz & _ & Hcap & Hnull & Hlive);
      [done.. |].
    pose proof (Unique_false b Hok Huniq) as Hcnt.
    eexists _, _, _. split; [done |]. split; [apply lookup_insert_eq |].
    split; [| simpl; split; [done | split; [done | lia]]].
    pose proof (set_ref_count_ok c _ Hc (mark_for_range flag)) as Hok2.
    apply heap_ok_insert; [| done |].
    + apply (heap_ok_same_array h _ b); [done | done | | done].
      apply set_ref_count_ok; [done | lia].
    + change (data c = 0
              ∨ ∀ j x, j ≠ a →
                  <[data_ s := set_ref_count b (ref_count_ b - 1)]> h !! j
                  = Some x → data x ≠ data c).
      destruct (Z.eq_dec (Z.max required (capacity_ b)) 0) as [Hz | Hnz].
      * left. by apply Hnull.
      * right. destruct Hlive as [_ Hdiff]; [lia |].
        intros j x _ Hj. destruct (decide (data_ s = j)) as [<- | Hne].
        -- rewrite lookup_insert_eq in Hj. injection Hj as <-.
           by apply (Hdiff (data_ s) b).
        -- rewrite lookup_insert_ne in Hj by done. by eapply Hdiff.
Qed.

Lemma new_StringData_heap_ok capacity (h : Heap) :
  heap_ok h → 0 ≤ capacity ≤ size_modulus - 4 →
  ∃ a b, new_StringData 0 capacity h = Some (a, <[a := b]> h)
         ∧ heap_ok (<[a := b]> h)
         ∧ block_ok b ∧ size_ b = 0 ∧ ref_count_ b = 1
         ∧ capacity ≤ capacity_ b.
Proof.
  intros Hh Hcap.
  destruct (new_StringData_zeroed capacity h Hcap)
    as (a & b & Hnew & _ & Hnone & Hok & Hsz & Hrc & Hle & Hblank & Hlive).
  exists a, b. split; [done |]. split; [| done].
  apply heap_ok_insert; [done | done |].
  destruct (Z.eq_dec capacity 0) as [Hz | Hnz].
  - left. by rewrite (Hblank Hz).
  - right. destruct Hlive as [_ Hdiff]; [lia |].
    intros j x _ Hj. by eapply Hdiff.
Qed.

Lemma CopyData_same_block b b' str length pos :
  CopyData b str length pos = Some b' →
  capacity_ b' = capacity_ b ∧ ref_count_ b' = ref_count_ b
  ∧ data b' = data b.
Proof.
  unfold CopyData.
  destruct (Unique b); [simpl | done].
  destruct (pos <=? size_ b); [simpl | done].
  destruct (wrap_size (pos + length) <=? capacity_ b); [simpl | done].
  destruct (memcpy_s _ _ _ _ _); [simpl | done].
  by intros [= <-].
Qed.

(** X22.  On storage that reads as zero every operation of the handle keeps
    the heap in order.  The empty heap is in order: every block is well
    formed (the capacity a multiple of 4, the size within it, an array of
    that many characters) and no array belongs to two blocks.  On a heap in
    order, [RCString()] and [RCString(str, length)] return and leave a heap
    in order, with no handle needed beforehand; and for every handle of the
    heap a copy construction, an [Append] from an array outside the heap
    and a destruction return and leave a heap in order, as does every
    [Append], from whatever source, and every mutable indexed access that
    returns. *)
Theorem operations_keep_heap_ok :
  heap_ok ∅
  ∧ ∀ h : Heap, heap_ok h →
    (∃ s' h', RCString_default 0 h = Some (s', h') ∧ heap_ok h')
    ∧ (∀ str length,
         0 ≤ length ≤ size_modulus - 4 →
         length ≤ Z.of_nat (List.length str) →
         ∃ s' h', RCString_from 0 str length h = Some (s', h') ∧ heap_ok h')
    ∧ (∀ s b, h !! data_ s = Some b →
         (∃ s' h', RCString_copy 0 s h = Some (s', h') ∧ heap_ok h')
         ∧ (∀ str length,
              0 ≤ length ≤ Z.of_nat (List.length str) →
              size_ b + length ≤ size_modulus - 4 →
              ∃ s' h', Append 0 s (Outside str) length h = Some (s', h')
                       ∧ heap_ok h')
         ∧ (∀ str length s' h',
              0 ≤ length → size_ b + length ≤ size_modulus - 4 →
              Append 0 s str length h = Some (s', h') → heap_ok h')
         ∧ (∀ pos r s' h', RCString_at_mut 0 s pos h = Some (r, s', h') →
                           heap_ok h')
         ∧ (∃ h', RCString_dtor s h = Some h' ∧ heap_ok h')).
Proof.
  split; [apply heap_ok_empty |].
  intros h Hh. pose proof Hh as [Hblocks Harrays].
  split.
  { unfold RCString_default.
    destruct (new_StringData_heap_ok kBaseSize h Hh)
      as (a & d & -> & Hh' & _); [rewrite size_modulus_value; by cbn |].
    by eexists _, _. }
  split.
  { intros str length Hn Hsrc. unfold RCString_from.
    destruct (new_StringData_heap_ok length h Hh)
      as (a & d & -> & Hh' & Hd & Hsz & Hrc & Hle); [lia |].
    cbn [mbind option_bind].
    destruct (CopyData_block_ok d str length 0)
      as (d' & Hcopy & Hd' & _ & _ & _ & Hdata & _);
      [done | by unfold Unique; rewrite Hrc | lia.. |].
    rewrite (invoke_at _ a _ d d') by (by rewrite ?lookup_insert_eq).
    cbn [mbind option_bind]. eexists _, _. split; [done |].
    by apply (heap_ok_same_array _ a d); [| apply lookup_insert_eq | |]. }
  intros s b Hs.
  pose proof (Hblocks _ _ Hs) as Hok.
  pose proof Hok as [[Hlen Hsize Hcap Haddr] _ Hcnt].
  pose proof (aligned_capacity_max b Hok) as Hmax.
  split.
  { destruct (Z.eq_dec (ref_count_ b) kUnsharedRefMark) as [Hex | Hsh].
    - unfold RCString_copy. rewrite Hs. cbn [mbind option_bind].
      unfold Unsharedable. rewrite Hex, Z.eqb_refl. cbn [negb].
      destruct (Clone_zeroed h (data_ s) b (size b) Hs Hok)
        as (a & c & -> & _ & Hnone & Hc & _ & _ & _ & _ & Hnull & Hlive);
        [unfold size; lia |].
      cbn [mbind option_bind]. eexists _, _. split; [done |].
      apply heap_ok_insert; [done | done |].
      destruct (Z.eq_dec (Z.max (size b) (capacity_ b)) 0) as [Hz | Hnz].
      + left. by apply Hnull.
      + right. destruct Hlive as [_ Hdiff]; [unfold size in *; lia |].
        intros j x _ Hj. by eapply Hdiff.
    - rewrite (RCString_copy_shares 0 h s b Hs) by lia.
      eexists _, _. split; [done |].
      apply (heap_ok_same_array h _ b); [done | done | | done].
      apply set_ref_count_ok; [done | lia]. }
  split.
  { intros str length Hn Hfit. rewrite Append_outside, Hs.
    cbn [mbind option_bind].
    unfold size. rewrite wrap_size_small by size_lia.
    destruct (PrepareToModify_heap_ok s (size_ b + length) false h b)
      as (s1 & h1 & b1 & -> & Hs1 & Hh1 & Hrc & Hsz & Hle);
      [done | done | lia |].
    cbn [mbind option_bind].
    pose proof (proj1 Hh1 _ _ Hs1) as Hok1.
    destruct (CopyData_at_end b1 str length)
      as (b2 & Hcopy & Hok2 & _ & _ & _ & Hdata & _);
      [done | by unfold Unique; rewrite Hrc | lia | lia | lia |].
    rewrite (invoke_at _ _ _ b1 b2) by done.
    cbn [mbind option_bind]. eexists _, _. split; [done |].
    by apply (heap_ok_same_array h1 _ b1). }
  split.
  { intros str length s' h' Hn Hfit. unfold Append. rewrite Hs.
    cbn [mbind option_bind].
    unfold size. rewrite wrap_size_small by size_lia.
    destruct (PrepareToModify_heap_ok s (size_ b + length) false h b)
      as (s1 & h1 & b1 & -> & Hs1 & Hh1 & Hrc & Hsz & Hle);
      [done | done | lia |].
    cbn [mbind option_bind]. rewrite Hs1. cbn [mbind option_bind].
    destruct (read_source _ _ _ _ _) as [chars |]; [| done].
    cbn [mbind option_bind]. unfold invoke. rewrite Hs1.
    cbn [mbind option_bind].
    destruct (CopyData b1 chars length (size_ b1)) as [b2 |] eqn:Hcopy;
      [| done].
    cbn [mbind option_bind]. intros [= <- <-].
    pose proof (proj1 Hh1 _ _ Hs1) as [Harr1 Hal1 Hcnt1].
    destruct (CopyData_same_block _ _ _ _ _ Hcopy) as (Hc2 & Hrc2 & Hd2).
    apply (heap_ok_same_array h1 _ b1); [done | done | | done].
    split; [| by rewrite Hc2 | by rewrite Hrc2].
    pose proof Harr1 as [_ Hsize1 _ _].
    apply (CopyData_array_ok b1 b2 chars length (size_ b1));
      [done | lia | done | size_lia | done]. }
  split.
  { intros pos r s' h'. unfold RCString_at_mut. rewrite Hs.
    cbn [mbind option_bind].
    destruct (PrepareToModify_heap_ok s (size b) true h b)
      as (s1 & h1 & b1 & -> & Hs1 & Hh1 & _);
      [done | done | unfold size; lia |].
    cbn [mbind option_bind]. rewrite Hs1. cbn [mbind option_bind].
    destruct (pos <? _); cbn [assert mbind option_bind]; [| done].
    by intros [= _ _ <-]. }
  destruct (Z.eq_dec (ref_count_ b) 1) as [Hone | Hmore].
  - rewrite (RCString_dtor_sole_owner h s b Hs Hone).
    eexists. split; [done |]. by apply heap_ok_delete.
  - destruct (Z.eq_dec (ref_count_ b) kUnsharedRefMark) as [Hex | Hsh].
    + rewrite (RCString_dtor_exclusive h s b Hs Hex).
      eexists. split; [done |]. by apply heap_ok_delete.
    + rewrite (RCString_dtor_sharer h s b Hs) by lia.
      eexists. split; [done |].
      apply (heap_ok_same_array h _ b); [done | done | | done].
      apply set_ref_count_ok; [done | lia].
Qed.

Lemma operations_keep_heap_ok_witness :
  let s := {| data_ := 1 |} in
  let h : Heap := {[1 := hello_block]} in
  (∃ s' h', RCString_default 0 ∅ = Some (s', h') ∧ heap_ok h')
  ∧ (∃ s' h', RCString_from 0 hello 5 ∅ = Some (s', h') ∧ heap_ok h')
  ∧ (∃ s' h', RCString_copy 0 s h = Some (s', h') ∧ heap_ok h')
  ∧ (∃ s' h', Append 0 s (Outside hello) 5 h = Some (s', h') ∧ heap_ok h')
  ∧ (∀ s' h', Append 0 s (Inside 1 2 0) 3 h = Some (s', h') → heap_ok h')
  ∧ (∀ pos r s' h', RCString_at_mut 0 s pos h = Some (r, s', h') →
                    heap_ok h')
  ∧ (∃ h', RCString_dtor s h = Some h' ∧ heap_ok h').
Proof.
  intros s h.
  destruct (proj2 operations_keep_heap_ok ∅ (proj1 operations_keep_heap_ok))
    as (Hdefault & Hfrom & _).
  assert (heap_ok h) as Hh.
  { split.
    - intros i b Hi. apply lookup_singleton_Some in Hi as [_ <-].
      split; [split; simpl; [reflexivity | lia | reflexivity | discriminate]
             | reflexivity | vm_compute; split; discriminate].
    - intros i j bi bj Hi Hj Hne.
      apply lookup_singleton_Some in Hi as [<- _].
      apply lookup_singleton_Some in Hj as [<- _]. by destruct Hne. }
  destruct (proj2 operations_keep_heap_ok h Hh) as (_ & _ & Hhandle).
  destruct (Hhandle s hello_block eq_refl)
    as (Hcopy & Hout & Hany & Hmut & Hdtor).
  split; [exact Hdefault |].
  split. { apply (Hfrom hello 5); [vm_compute; split; discriminate |]. simpl. lia. }
  split; [exact Hcopy |].
  split. { apply (Hout hello 5); [simpl; lia | vm_compute; discriminate]. }
  split. { intros s' h'. apply (Hany (Inside 1 2 0) 3); [lia |].
           vm_compute. discriminate. }
  split; [exact Hmut | exact Hdtor].
Defined.

